(** * treefmt: the formatting pipeline, embedded from the Go sources

    The development follows the repository's packages:
    - [Formatter]  : package format  (the formatter stage: Init, Wants, Run, apply)
    - [Format]     : package cli     (Format.Run: graph validation, completion
                                      drain, dispatch, path source)
    - [GitReader]  : package walk    (GitReader.Read)
    - [cache]      : package cache   (not among the sources; modelled)

    Channels and the context are modelled by what the code observes of them:
    a [select] yields one event, a poll of [ctx.Done()] yields a boolean.
    External programs, [os.Stat] and [git ls-files] are oracles. *)

From stdpp Require Import gmap strings list fin_maps pretty.
From Stdlib Require Import ZArith Lia.

Open Scope string_scope.
Open Scope list_scope.
Open Scope nat_scope.

(** ** Errors

    Go's [error] values that the modelled code creates, returns or tests. *)
Inductive error : Type :=
| Canceled                              (* context.Canceled, the value of ctx.Err() *)
| ExitError (status : Z)                (* *exec.ExitError from cmd.CombinedOutput *)
| ErrFormatterNotFound                  (* format.ErrFormatterNotFound *)
| ErrFailOnChange                       (* cli.ErrFailOnChange *)
| EOF                                   (* io.EOF *)
| ErrNotExist                           (* fs.ErrNotExist, ENOENT *)
| ErrPermission                         (* fs.ErrPermission, EACCES *)
| CacheError (msg : string)             (* a storage failure of package cache *)
| Errorf (msg : string)                 (* fmt.Errorf without %w *)
| Wrapf (msg : string) (cause : error). (* fmt.Errorf with %w *)

(** os.IsNotExist *)
Definition IsNotExist (err : option error) : bool :=
  match err with
  | Some ErrNotExist => true
  | _ => false
  end.
Arguments IsNotExist : simpl never.

(** A context is observed through polls of [ctx.Done()]; [Some k] is a
    context whose cancellation becomes visible at the k-th poll, [None] one
    that is never cancelled. *)
Definition Context : Type := option nat.

Definition ctxDone (ctx : Context) (poll : nat) : bool :=
  match ctx with
  | Some k => k <=? poll
  | None => false
  end.

(** One outcome of a [select] over [ctx.Done()] and a channel of paths
    (Formatter.Run on its inbox, the completion drain on completedCh). *)
Inductive event : Type :=
| CtxDone                 (* case <-ctx.Done() *)
| Recv (path : string)    (* case path, ok := <-ch with ok *)
| Closed.                 (* case path, ok := <-ch with !ok *)

(** ** io/fs file modes: a FileMode is a uint32, the type bits are those of
    the Go standard library. *)
Definition ModeDir : Z := Z.shiftl 1 31.
Definition ModeSymlink : Z := Z.shiftl 1 27.
Definition ModeDevice : Z := Z.shiftl 1 26.
Definition ModeNamedPipe : Z := Z.shiftl 1 25.
Definition ModeSocket : Z := Z.shiftl 1 24.
Definition ModeCharDevice : Z := Z.shiftl 1 21.
Definition ModeIrregular : Z := Z.shiftl 1 19.
Definition ModeType : Z :=
  Z.lor ModeDir (Z.lor ModeSymlink (Z.lor ModeNamedPipe (Z.lor ModeSocket
    (Z.lor ModeDevice (Z.lor ModeCharDevice ModeIrregular))))).

Record FileInfo : Type := mkFileInfo {
  Size : Z;
  Mode : Z;
  ModTime : Z
}.

(** FileInfo.IsDir is Mode().IsDir(): m&ModeDir != 0 *)
Definition IsDir (info : FileInfo) : bool :=
  negb (Z.land (Mode info) ModeDir =? 0)%Z.

(** FileMode.IsRegular: m&ModeType == 0 *)
Definition IsRegular (m : Z) : bool := (Z.land m ModeType =? 0)%Z.

(** strings.Join *)
Fixpoint Join (elems : list string) (sep : string) : string :=
  match elems with
  | [] => ""
  | [e] => e
  | e :: rest => e +:+ sep +:+ Join rest sep
  end.

(** ** package format: the formatter stage *)
Module Formatter.

(** glob.Glob is an interface with the single method Match. *)
Record Glob : Type := { Match : string -> bool }.

Record Formatter : Type := mkFormatter {
  Name : string;
  Command : string;
  Options : list string;
  Includes : list string;
  Excludes : list string;
  Before : list string;
  includes : list Glob;
  excludes : list Glob;
  batch : list string;
  batchSize : nat
}.

Definition set_batch (f : Formatter) (b : list string) : Formatter :=
  mkFormatter (Name f) (Command f) (Options f) (Includes f) (Excludes f)
              (Before f) (includes f) (excludes f) b (batchSize f).

(** What a stage does to the outside: the external program invocations
    (command and arguments, one entry per cmd.CombinedOutput call), the
    completion records (MarkFormatComplete) and the forwarded paths
    (ForwardPath), each in program order. *)
Record World : Type := mkWorld {
  invocations : list (string * list string);
  completed : list string;
  forwarded : list (string * list string)
}.

Definition emptyWorld : World := mkWorld [] [] [].

(** Modelled from the spec: PathMatches (package format) is not among the
    sources. The spec reads it as "path matches at least one pattern" of the
    list, and its negation as "matches no pattern". *)
Definition PathMatches (path : string) (globs : list Glob) : bool :=
  existsb (fun g => Match g path) globs.

Section Stage.
(** glob.Compile *)
Variable Compile : string -> Glob + error.
(** exec.Command(f.Command, "--help").Run() *)
Variable helpRun : string -> option error.
(** cmd.CombinedOutput of exec.CommandContext(ctx, command, args...): the
    first argument counts the invocations made before this one. *)
Variable CombinedOutput : nat -> string -> list string -> option error.

Fixpoint compileAll (patterns : list string) (acc : list Glob)
  : list Glob + (string * error) :=
  match patterns with
  | [] => inl acc
  | pattern :: rest =>
      match Compile ("**/" +:+ pattern) with
      | inr err => inr (pattern, err)
      | inl g => compileAll rest (acc ++ [g])
      end
  end.

Definition Init (f : Formatter) (name : string) : Formatter + error :=
  match helpRun (Command f) with
  | Some _ => inr ErrFormatterNotFound
  | None =>
      match compileAll (Includes f) (includes f) with
      | inr (pattern, err) =>
          inr (Wrapf ("failed to compile include pattern '" +:+ pattern
                      +:+ "' for formatter '" +:+ name +:+ "'") err)
      | inl incs =>
          match compileAll (Excludes f) (excludes f) with
          | inr (pattern, err) =>
              inr (Wrapf ("failed to compile exclude pattern '" +:+ pattern
                          +:+ "' for formatter '" +:+ name +:+ "'") err)
          | inl excs =>
              inl (mkFormatter name (Command f) (Options f) (Includes f)
                               (Excludes f) (Before f) incs excs [] 1024)
          end
      end
  end.

Definition Wants (f : Formatter) (path : string) : bool :=
  negb (PathMatches path (excludes f)) && PathMatches path (includes f).

Definition MarkFormatComplete (w : World) (path : string) : World :=
  mkWorld (invocations w) (completed w ++ [path]) (forwarded w).

Definition ForwardPath (before : list string) (w : World) (path : string) : World :=
  mkWorld (invocations w) (completed w) (forwarded w ++ [(path, before)]).

Definition apply (f : Formatter) (w : World) : Formatter * World * option error :=
  if length (batch f) =? 0 then (f, w, None)
  else
    let args := Options f ++ batch f in
    let w1 := mkWorld (invocations w ++ [(Command f, args)])
                      (completed w) (forwarded w) in
    match CombinedOutput (length (invocations w)) (Command f) args with
    | Some err => (f, w1, Some err)
    | None =>
        let w2 := if length (Before f) =? 0
                  then foldl MarkFormatComplete w1 (batch f)
                  else foldl (ForwardPath (Before f)) w1 (batch f) in
        (set_batch f [], w2, None)
    end.

(** The LOOP of Run. The third component is [None] when the events run out
    (the select blocks), and [Some err] when the loop was left by
    [break LOOP] with the function's named result [err] holding [err].
    The [err] of [if err := f.apply(ctx); err != nil] is a new variable
    scoped to that statement: the named result is untouched by it. *)
Fixpoint loop (evs : list event) (f : Formatter) (w : World)
  : Formatter * World * option (option error) :=
  match evs with
  | [] => (f, w, None)
  | CtxDone :: _ => (f, w, Some (Some Canceled))
  | Closed :: _ => (f, w, Some None)
  | Recv path :: evs' =>
      let f1 := set_batch f (batch f ++ [path]) in
      if length (batch f1) =? batchSize f1 then
        match apply f1 w with
        | (f2, w2, Some _) => (f2, w2, Some None)
        | (f2, w2, None) => loop evs' f2 w2
        end
      else loop evs' f1 w
  end.

(** Run returns [None] while the goroutine is still blocked in the select. *)
Definition Run (evs : list event) (f : Formatter) (w : World)
  : option (Formatter * World * option error) :=
  match loop evs f w with
  | (_, _, None) => None
  | (f1, w1, Some (Some err)) => Some (f1, w1, Some err)
  | (f1, w1, Some None) => Some (apply f1 w1)
  end.
End Stage.

End Formatter.

(** ** package cli: Format.Run *)
Module Format.

(** config.Formatter, as far as Format.Run reads it. *)
Record FormatterCfg : Type := mkCfg {
  Command : string;
  Options : list string;
  Includes : list string;
  Excludes : list string;
  Before : string
}.

(** A [range] over a Go map visits every key once, in an order the language
    leaves open: the order is an input, a list of the map's keys. *)
Definition rangeOf (Formatters : gmap string FormatterCfg) (order : list string)
  : list (string * FormatterCfg) :=
  omap (fun name => (fun c => (name, c)) <$> Formatters !! name) order.

(** detect broken dependencies *)
Fixpoint detectBroken (Formatters : gmap string FormatterCfg)
         (rng : list (string * FormatterCfg)) : option error :=
  match rng with
  | [] => None
  | (name, formatterCfg) :: rest =>
      let before := Before formatterCfg in
      if bool_decide (before = "") then detectBroken Formatters rest
      else match Formatters !! before with
           | Some _ => detectBroken Formatters rest
           | None =>
               Some (Errorf ("formatter " +:+ name +:+ " is before " +:+ before
                             +:+ " but config for " +:+ before +:+ " was not found"))
           end
  end.

(** The inner [for] of the dependency cycle detection, started at [name].
    [fuel] bounds the number of iterations; [None] says the loop is still
    running after [fuel] iterations. [Some None] is the [break]. The last
    branch (the child is not configured) reads the looked-up configuration
    after a failed lookup; detectBroken has returned before it can be
    reached. *)
Fixpoint follow (fuel : nat) (Formatters : gmap string FormatterCfg)
         (name childName : string) (formatterCfg : FormatterCfg)
         (history : list string) : option (option error) :=
  match fuel with
  | 0 => None
  | S fuel' =>
      let history := history ++ [childName] in
      if bool_decide (Before formatterCfg = "") then Some None
      else if bool_decide (Before formatterCfg = name) then
        Some (Some (Errorf ("formatter cycle detected " +:+ Join history " -> ")))
      else
        match Formatters !! Before formatterCfg with
        | Some child =>
            follow fuel' Formatters name (Before formatterCfg) child history
        | None => Some (Some (Errorf "formatter not found: "))
        end
  end.

(** dependency cycle detection: the outer [for ... range cfg.Formatters] *)
Fixpoint detectCycles (fuel : nat) (Formatters : gmap string FormatterCfg)
         (rng : list (string * FormatterCfg)) : option (option error) :=
  match rng with
  | [] => Some None
  | (name, formatterCfg) :: rest =>
      match follow fuel Formatters name name formatterCfg [] with
      | None => None
      | Some (Some err) => Some (Some err)
      | Some None => detectCycles fuel Formatters rest
      end
  end.

(** The validation part of graph construction (lines 72 to 106). *)
Definition validate (fuel : nat) (Formatters : gmap string FormatterCfg)
           (order1 order2 : list string) : option (option error) :=
  match detectBroken Formatters (rangeOf Formatters order1) with
  | Some err => Some (Some err)
  | None => detectCycles fuel Formatters (rangeOf Formatters order2)
  end.

(** The command line options Format.Run reads in the modelled parts. *)
Record Cli : Type := mkCli {
  NoCache : bool;
  FailOnChange : bool
}.

Section Pipeline.
(** The state of the cache store, and the two operations of package cache
    that Format.Run calls once the store is open. *)
Variable Store : Type.
Variable Update : Store -> list string -> Store * nat * option error.
Variable ChangeSet :
  Store -> Context -> list (string * FileInfo) -> list string * option error.

(** The variables the completion goroutine closes over. *)
Record Drain : Type := mkDrain {
  store : Store;
  batch : list string;
  changes : nat
}.

Definition batchSize : nat := 1024.

Definition processBatch (cli : Cli) (d : Drain) : Drain * option error :=
  if NoCache cli then
    (mkDrain (store d) [] (changes d + length (batch d)), None)
  else
    match Update (store d) (batch d) with
    | (st, _, Some err) => (mkDrain st (batch d) (changes d), Some err)
    | (st, count, None) => (mkDrain st [] (changes d + count), None)
    end.

Inductive exit : Type :=
| Blocked                   (* the select waits: no event left *)
| Returned (err : error)    (* a return inside the loop *)
| Broke.                    (* break LOOP *)

Fixpoint drainLoop (cli : Cli) (evs : list event) (d : Drain) : Drain * exit :=
  match evs with
  | [] => (d, Blocked)
  | CtxDone :: _ => (d, Returned Canceled)
  | Closed :: _ => (d, Broke)
  | Recv path :: evs' =>
      let d1 := mkDrain (store d) (batch d ++ [path]) (changes d) in
      if length (batch d1) =? batchSize then
        match processBatch cli d1 with
        | (d2, Some err) => (d2, Returned err)
        | (d2, None) => drainLoop cli evs' d2
        end
      else drainLoop cli evs' d1
  end.

(** The goroutine "update cache as paths are completed"; [None] while it
    is blocked in the select. *)
Definition drain (cli : Cli) (evs : list event) (d : Drain)
  : option (Drain * option error) :=
  match drainLoop cli evs d with
  | (_, Blocked) => None
  | (d1, Returned err) => Some (d1, Some err)
  | (d1, Broke) =>
      match processBatch cli d1 with
      | (d2, Some err) => Some (d2, Some err)
      | (d2, None) =>
          if FailOnChange cli && negb (changes d2 =? 0)
          then Some (d2, Some ErrFailOnChange)
          else Some (d2, None)
      end
  end.

(** Formatting completes successfully: the loop ends on the closed
    completion channel and the final flush succeeds. *)
Definition completes (cli : Cli) (evs : list event) (d : Drain) : Prop :=
  exists d1 d2,
    drainLoop cli evs d = (d1, Broke) /\ processBatch cli d1 = (d2, None).

(** "pass paths to each formatter": the Put calls, as (formatter, path),
    [formatters] being the map in the order its range visits it. *)
Definition dispatch (formatters : list Formatter.Formatter) (paths : list string)
  : list (string * string) :=
  flat_map (fun path =>
    flat_map (fun f =>
      if Formatter.Wants f path then [(Formatter.Name f, path)] else [])
      formatters) paths.

(** The callback given to walker.Walk in the no-cache mode; [poll] counts
    the earlier polls of the context. The callback does not read its [err]
    argument. *)
Definition walkFn (ctx : Context) (poll : nat) (pathsCh : list string)
           (path : string) (info : FileInfo) : list string * option error :=
  if ctxDone ctx poll then (pathsCh, Some Canceled)
  else if negb (IsDir info || (Z.land (Mode info) ModeSymlink =? ModeSymlink)%Z)
       then (pathsCh ++ [path], None)
       else (pathsCh, None).

(** walker.Walk: the callback on every entry the walker yields, until it
    returns an error. *)
Fixpoint Walk (ctx : Context) (poll : nat) (entries : list (string * FileInfo))
         (pathsCh : list string) : list string * option error :=
  match entries with
  | [] => (pathsCh, None)
  | (path, info) :: rest =>
      match walkFn ctx poll pathsCh path info with
      | (ch, Some err) => (ch, Some err)
      | (ch, None) => Walk ctx (S poll) rest ch
      end
  end.

(** The goroutine that fills pathsCh (lines 265 to 280). *)
Definition pathSource (cli : Cli) (ctx : Context) (st : Store)
           (entries : list (string * FileInfo)) : list string * option error :=
  if NoCache cli then Walk ctx 0 entries []
  else ChangeSet st ctx entries.
End Pipeline.

(** "create optional formatter filter set" (lines 51 to 59). Go's
    map[string]bool with every stored value true is a set of names. [err] is
    the value the variable [err] holds at that point (the result of
    CompileGlobs, which is not checked): the error wraps it when it is not
    nil, and formats a nil as the text below. *)
Fixpoint formatterSet (Formatters : gmap string FormatterCfg) (err : option error)
         (names : list string) (set : gset string) : gset string + error :=
  match names with
  | [] => inl set
  | name :: rest =>
      match Formatters !! name with
      | None =>
          inr (match err with
               | Some e => Wrapf (": formatter not found in config: " +:+ name) e
               | None => Errorf ("%!w(<nil>): formatter not found in config: " +:+ name)
               end)
      | Some _ => formatterSet Formatters err rest ({[name]} ∪ set)
      end
  end.

(** The closure includeFormatter (lines 61 to 68). *)
Definition includeFormatter (set : gset string) (name : string) : bool :=
  if size set =? 0 then true else bool_decide (name ∈ set).

Section Init.
(** The formatter type of package format that Format.Run instantiates, its
    constructor (with the global excludes already given), and the test
    errors.Is(err, format2.ErrCommandNotFound). *)
Variable T : Type.
Variable NewFormatter : string -> FormatterCfg -> T + error.
Variable isCommandNotFound : error -> bool.

(** "init formatters" (lines 108 to 126): the range over cfg.Formatters,
    threading cfg.Formatters (entries are deleted from it) and the map
    [formatters]. *)
Fixpoint initFormatters (set : gset string) (allowMissing : bool)
         (rng : list (string * FormatterCfg))
         (cfgFormatters : gmap string FormatterCfg) (formatters : gmap string T)
  : gmap string FormatterCfg * gmap string T + error :=
  match rng with
  | [] => inl (cfgFormatters, formatters)
  | (name, formatterCfg) :: rest =>
      if negb (includeFormatter set name) then
        initFormatters set allowMissing rest (delete name cfgFormatters) formatters
      else
        match NewFormatter name formatterCfg with
        | inr err =>
            if isCommandNotFound err && allowMissing then
              initFormatters set allowMissing rest cfgFormatters formatters
            else inr (Wrapf (": failed to initialise formatter: " +:+ name) err)
        | inl formatter =>
            initFormatters set allowMissing rest cfgFormatters
                           (<[name := formatter]> formatters)
        end
  end.
End Init.

End Format.

(** ** package cache *)
Module cache.

(** Modelled from the spec: package cache is not among the sources. A
    signature is "size, modification time, and/or content digest". *)
Record Signature : Type := mkSignature {
  size : Z;
  modified : Z;
  digest : string
}.

#[global] Instance Signature_eq_dec : EqDecision Signature.
Proof. solve_decision. Defined.

(** Modelled from the spec: a cache entry "stores a modification signature
    and the identifier of the formatter-set configuration signature active
    when the entry was last written". *)
Record Entry : Type := mkEntry {
  signature : Signature;
  formatterSet : string
}.

Section Store.
(** The tree: the current on-disk signature of every path. *)
Variable disk : string -> Signature.
(** The formatter-set configuration signature of this run. *)
Variable current : string.

(** Modelled from the spec: "a path is emitted as changed if no entry
    exists, either signature differs, or the formatter-set signature
    differs". *)
Definition isChanged (st : gmap string Entry) (path : string) : bool :=
  match st !! path with
  | None => true
  | Some e =>
      negb (bool_decide (signature e = disk path))
      || negb (bool_decide (formatterSet e = current))
  end.

(** Modelled from the spec: filterChanged(candidatePaths) -> changedPaths. *)
Definition filterChanged (st : gmap string Entry) (candidates : list string)
  : list string :=
  List.filter (isChanged st) candidates.

(** Modelled from the spec: the content digest of the path "actually
    differs from what was previously stored". *)
Definition digestDiffers (st : gmap string Entry) (path : string) : bool :=
  match st !! path with
  | None => true
  | Some e => negb (bool_decide (digest (signature e) = digest (disk path)))
  end.

(** Modelled from the spec: recordCompletion(paths) "for each path, stores
    its latest on-disk signature and the current formatter-set signature;
    returns a count of paths whose content digest actually differs from
    what was previously stored". *)
Fixpoint recordCompletion (st : gmap string Entry) (paths : list string)
  : gmap string Entry * nat :=
  match paths with
  | [] => (st, 0)
  | path :: rest =>
      let bump := if digestDiffers st path then 1 else 0 in
      let '(st', count) :=
        recordCompletion (<[path := mkEntry (disk path) current]> st) rest in
      (st', bump + count)
  end.

(** Modelled from the spec: cache.Update is recordCompletion; the model
    has no storage failure. *)
Definition Update (st : gmap string Entry) (paths : list string)
  : gmap string Entry * nat * option error :=
  (recordCompletion st paths, None).

(** Modelled from the spec: cache.ChangeSet walks the path source and
    sends the changed paths into pathsCh, observing cancellation at every
    entry. *)
Fixpoint changeSetFrom (st : gmap string Entry) (ctx : Context) (poll : nat)
         (entries : list (string * FileInfo)) (pathsCh : list string)
  : list string * option error :=
  match entries with
  | [] => (pathsCh, None)
  | (path, _) :: rest =>
      if ctxDone ctx poll then (pathsCh, Some Canceled)
      else changeSetFrom st ctx (S poll) rest
             (if isChanged st path then pathsCh ++ [path] else pathsCh)
  end.

Definition ChangeSet (st : gmap string Entry) (ctx : Context)
           (entries : list (string * FileInfo)) : list string * option error :=
  changeSetFrom st ctx 0 entries [].
End Store.

End cache.

(** ** package walk: the git reader *)
Module GitReader.

Record File : Type := mkFile {
  Path : string;
  RelPath : string;
  Info : FileInfo
}.

(** [scanner] is [None] for the nil scanner, otherwise the lines of
    [git ls-files] not read yet; [Traversed] is the counter of g.stats. *)
Record GitReader : Type := mkGitReader {
  root : string;
  path : string;
  Traversed : nat;
  scanner : option (list string)
}.

Section Read.
(** filepath.Join *)
Variable filepathJoin : list string -> string.
(** os.Stat *)
Variable Stat : string -> FileInfo + error.
(** The output lines of [git ls-files] run in the given directory. *)
Variable lsFiles : string -> list string.

(** The LOOP of Read on the lines left in the scanner. Returns the lines
    left, the slice, n and err. *)
Fixpoint readLoop (g : GitReader) (ctx : Context) (poll : nat)
         (lines : list string) (files : list (option File)) (n : nat)
  : list string * list (option File) * nat * option error :=
  if n <? length files then
    if ctxDone ctx poll then (lines, files, n, Some Canceled)
    else
      match lines with
      | [] => (lines, files, n, Some EOF)
      | text :: rest =>
          let path := filepathJoin [root g; path g; text] in
          match Stat path with
          | inr err =>
              if IsNotExist (Some err) then readLoop g ctx (S poll) rest files n
              else (rest, files, n,
                    Some (Wrapf ("failed to stat " +:+ path) err))
          | inl info =>
              let file := mkFile path (filepathJoin [GitReader.path g; text]) info in
              readLoop g ctx (S poll) rest (<[n := Some file]> files) (S n)
          end
      end
  else (lines, files, n, None).

Definition Read (g : GitReader) (ctx : Context) (files : list (option File))
  : GitReader * list (option File) * nat * option error :=
  let lines := match scanner g with
               | Some lines => lines
               | None => lsFiles (filepathJoin [root g; path g])
               end in
  let '(rest, files', n, err) := readLoop g ctx 0 lines files 0 in
  (mkGitReader (root g) (path g) (Traversed g + n) (Some rest), files', n, err).

(** The lines the reader has still to read. *)
Definition listing (g : GitReader) : list string :=
  match scanner g with
  | Some lines => lines
  | None => lsFiles (filepathJoin [root g; path g])
  end.

(** The listed path is in the index but no longer on the filesystem. *)
Definition removed (g : GitReader) (text : string) : bool :=
  match Stat (filepathJoin [root g; path g; text]) with
  | inr err => IsNotExist (Some err)
  | inl _ => false
  end.

(** The reader with the removed paths taken out of its listing. *)
Definition withoutRemoved (g : GitReader) : GitReader :=
  mkGitReader (root g) (path g) (Traversed g)
              (Some (List.filter (fun text => negb (removed g text)) (listing g))).

(** The slice, n and err of a loop result. *)
Definition outcome (r : list string * list (option File) * nat * option error)
  : list (option File) * nat * option error :=
  (r.1.1.2, r.1.2, r.2).
(** The files of the listed paths whose stat succeeds, in listing order. *)
Definition existing (g : GitReader) (lines : list string) : list File :=
  omap (fun text =>
          match Stat (filepathJoin [root g; path g; text]) with
          | inl info =>
              Some (mkFile (filepathJoin [root g; path g; text])
                           (filepathJoin [path g; text]) info)
          | inr _ => None
          end) lines.

(** No listed path has a stat failure other than non-existence. *)
Definition statsCleanly (g : GitReader) (lines : list string) : Prop :=
  forall text err,
    In text lines ->
    Stat (filepathJoin [root g; path g; text]) = inr err ->
    IsNotExist (Some err) = true.
End Read.

End GitReader.

(** ** Sample inputs *)

(** [n] distinct Go source paths. *)
Definition sourceFiles (n : nat) : list string :=
  map (fun i : nat => "src/f" +:+ pretty i +:+ ".go") (seq 0 n).

(** A glob compiler that accepts every pattern; the compiled glob matches the
    paths ending in the text after the pattern's last star. *)
Definition suffixGlob (pattern : string) : Formatter.Glob + error :=
  inl {| Formatter.Match := fun path =>
           bool_decide (String.rev (String.substring 0 3 (String.rev path))
                        = String.rev (String.substring 0 3 (String.rev pattern))) |}.

Definition helpOk (command : string) : option error := None.

(** The zero-valued struct with the configuration fields filled in, as the
    configuration loader leaves it before Init. *)
Definition configured (command : string) (options incl excl before : list string)
  : Formatter.Formatter :=
  Formatter.mkFormatter "" command options incl excl before [] [] [] 0.

Definition initialised (f : Formatter.Formatter) (name : string) : Formatter.Formatter :=
  match Formatter.Init suffixGlob helpOk f name with
  | inl f' => f'
  | inr _ => f
  end.

Definition gofmt : Formatter.Formatter :=
  initialised (configured "gofmt" ["-w"] ["*.go"] [] []) "gofmt".

(** External programs: one that always succeeds, one that always fails, and
    one that fails on its first invocation only. *)
Definition succeeds (k : nat) (command : string) (args : list string) : option error :=
  None.
Definition fails (k : nat) (command : string) (args : list string) : option error :=
  Some (ExitError 1).
Definition failsOnce (k : nat) (command : string) (args : list string) : option error :=
  if k =? 0 then Some (ExitError 1) else None.

(** Three formatters: black runs before isort, isort before ruff, ruff before
    isort. The cycle is isort -> ruff -> isort; black leads into it. *)
Definition before (name : string) : Format.FormatterCfg :=
  Format.mkCfg "true" [] ["*.py"] [] name.

Definition tailIntoCycle : gmap string Format.FormatterCfg :=
  <["black" := before "isort"]>
    (<["isort" := before "ruff"]> (<["ruff" := before "isort"]> ∅)).

(** A tree whose files all have the same size and time stamp, and a store
    that holds "main.go" as it is on disk. *)
Definition onDisk (path : string) : cache.Signature :=
  cache.mkSignature 120 1700000000 ("sha256:" +:+ path).

Definition formatterSet : string := "gofmt -w *.go".

Definition formattedStore : gmap string cache.Entry :=
  {[ "main.go" := cache.mkEntry (onDisk "main.go") formatterSet ]}.

(** A tree with a directory, a Go file, a symbolic link and a named pipe. *)
Definition regularFile : FileInfo := mkFileInfo 120 420 1700000000.
Definition directory : FileInfo := mkFileInfo 4096 (Z.lor ModeDir 493) 1700000000.
Definition symlink : FileInfo := mkFileInfo 7 (Z.lor ModeSymlink 511) 1700000000.
Definition namedPipe : FileInfo := mkFileInfo 0 (Z.lor ModeNamedPipe 420) 1700000000.

Definition tree : list (string * FileInfo) :=
  [("cmd", directory); ("cmd/main.go", regularFile); ("latest.go", symlink);
   ("run/fmt.pipe", namedPipe)].

(** A work tree at /repo whose index lists three files, one of which has been
    removed from the filesystem. *)
Definition joinPath (elems : list string) : string :=
  Join (List.filter (fun e => negb (bool_decide (e = ""))) elems) "/".

Definition statTree (path : string) : FileInfo + error :=
  if bool_decide (path = "/repo/nixpkgs.toml") then inr ErrNotExist
  else inl regularFile.

Definition gitIndex (dir : string) : list string :=
  ["go/main.go"; "nixpkgs.toml"; "treefmt.toml"].

Definition reader : GitReader.GitReader := GitReader.mkGitReader "/repo" "" 0 None.

(** A machine on which no formatter command is installed. *)
Definition helpMissing (command : string) : option error := Some (ExitError 127).

(** A configuration of two independent formatters, a constructor that does
    not find the command "rufo", and the test for that error. *)
Definition twoFormatters : gmap string Format.FormatterCfg :=
  <["gofmt" := Format.mkCfg "gofmt" ["-w"] ["*.go"] [] ""]>
    (<["rufo" := Format.mkCfg "rufo" [] ["*.rb"] [] ""]> ∅).

Definition newFormatter (name : string) (c : Format.FormatterCfg)
  : Formatter.Formatter + error :=
  if bool_decide (Format.Command c = "rufo") then inr ErrFormatterNotFound
  else inl (initialised (configured (Format.Command c) (Format.Options c)
                                    (Format.Includes c) (Format.Excludes c) []) name).

Definition commandNotFound (err : error) : bool :=
  match err with
  | ErrFormatterNotFound => true
  | _ => false
  end.

(** A work tree in which one listed file cannot be read. *)
Definition statLocked (path : string) : FileInfo + error :=
  if bool_decide (path = "/repo/secret.key") then inr ErrPermission
  else statTree path.

Definition lockedReader : GitReader.GitReader :=
  GitReader.mkGitReader "/repo" "" 0
    (Some ["nixpkgs.toml"; "secret.key"; "treefmt.toml"]).

(** ** Vocabulary of the statements *)

(** The arguments of invocation [inv] are the options of [f] followed by at
    least one and at most batchSize paths. *)
Definition withinBatch (f : Formatter.Formatter) (inv : string * list string) : Prop :=
  exists paths,
    inv = (Formatter.Command f, Formatter.Options f ++ paths)
    /\ 0 < length paths /\ length paths <= Formatter.batchSize f.

(** What a stage hands on: completion records when it has no Before, forwarded
    paths otherwise. *)
Definition handedOn (f : Formatter.Formatter) (w : Formatter.World) (paths : list string)
  : Formatter.World :=
  if length (Formatter.Before f) =? 0
  then Formatter.mkWorld (Formatter.invocations w) (Formatter.completed w ++ paths)
                         (Formatter.forwarded w)
  else Formatter.mkWorld (Formatter.invocations w) (Formatter.completed w)
         (Formatter.forwarded w ++ map (fun path => (path, Formatter.Before f)) paths).

(** The pattern compiles to [g], under the prefix Init puts before it. *)
Definition compilesTo (Compile : string -> Formatter.Glob + error)
           (pattern : string) (g : Formatter.Glob) : Prop :=
  Compile ("**/" +:+ pattern) = inl g.

(** The formatter's Before is empty or names a configured formatter. *)
Definition resolves (Formatters : gmap string Format.FormatterCfg)
           (entry : string * Format.FormatterCfg) : Prop :=
  Format.Before entry.2 = "" \/ is_Some (Formatters !! Format.Before entry.2).

(** The chain of "runs before" names from [c] comes back to [name]: [names]
    are the formatters passed on the way, none of which is [name]. *)
Inductive leadsBack (Formatters : gmap string Format.FormatterCfg) (name : string)
  : Format.FormatterCfg -> list string -> Prop :=
| leadsBack_here c :
    Format.Before c = name -> name <> "" -> leadsBack Formatters name c []
| leadsBack_step c child names :
    Format.Before c <> "" -> Format.Before c <> name ->
    Formatters !! Format.Before c = Some child ->
    leadsBack Formatters name child names ->
    leadsBack Formatters name c (Format.Before c :: names).

(** The chain of "runs before" names from [c] ends at a formatter without
    Before, after [hops] formatters none of which is [name]. *)
Inductive chainEnds (Formatters : gmap string Format.FormatterCfg) (name : string)
  : Format.FormatterCfg -> nat -> Prop :=
| chainEnds_here c : Format.Before c = "" -> chainEnds Formatters name c 0
| chainEnds_step c child hops :
    Format.Before c <> "" -> Format.Before c <> name ->
    Formatters !! Format.Before c = Some child ->
    chainEnds Formatters name child hops ->
    chainEnds Formatters name c (S hops).

(** The paths put into the inbox of the formatter called [name]. *)
Definition inboxOf (name : string) (puts : list (string * string)) : list string :=
  map snd (List.filter (fun put => bool_decide (put.1 = name)) puts).

(** A stand-in for cache.Update that keeps the batches it is called with and
    counts every path as changed. *)
Definition recordingUpdate (calls : list (list string)) (paths : list string)
  : list (list string) * nat * option error :=
  (calls ++ [paths], length paths, None).

(** A stand-in for cache.Update whose storage always fails. *)
Definition failingUpdate (calls : list (list string)) (paths : list string)
  : list (list string) * nat * option error :=
  (calls ++ [paths], 0, Some (CacheError "disk full")).

(** How many entries the no-cache walk considers: all of them, or those
    before the poll that sees the cancellation. *)
Definition considered (ctx : Context) (poll : nat) (entries : list (string * FileInfo))
  : nat :=
  match ctx with
  | None => length entries
  | Some k => Nat.min (k - poll) (length entries)
  end.

(** An entry that is neither a directory (bit 31 of the mode) nor a symbolic
    link (bit 27). *)
Definition neitherDirNorSymlink (entry : string * FileInfo) : bool :=
  negb (Z.testbit (Mode entry.2) 31) && negb (Z.testbit (Mode entry.2) 27).

(** * Properties of the formatter stage *)
Section StageFacts.
Import Formatter.
Variable exec : nat -> string -> list string -> option error.

Lemma loop_app_blocked pre : forall evs f w f1 w1,
  loop exec pre f w = (f1, w1, None) ->
  loop exec (pre ++ evs) f w = loop exec evs f1 w1.
Proof.
  induction pre as [|ev pre IH]; intros evs f w f1 w1 H; simpl in *.
  - by inversion H.
  - destruct ev; try discriminate.
    destruct (_ =? _).
    + destruct (apply exec _ w) as [[f2 w2] [e|]]; [discriminate|].
      by apply IH.
    + by apply IH.
Qed.

(** A failing flush leaves the batch and reports the invocation. *)
Lemma apply_fails f w e :
  batch f <> [] ->
  exec (length (invocations w)) (Command f) (Options f ++ batch f) = Some e ->
  apply exec f w
  = (f, mkWorld (invocations w ++ [(Command f, Options f ++ batch f)])
                (completed w) (forwarded w), Some e).
Proof.
  intros Hne He. unfold apply.
  destruct (length (batch f) =? 0) eqn:Hlen.
  - apply Nat.eqb_eq in Hlen. by destruct (batch f).
  - by rewrite He.
Qed.

(** When the flush of a full batch fails inside the loop, Run goes on to the
    final flush with the same batch: the program is invoked a second time on
    the same arguments, and Run returns what that second invocation gives. *)
Lemma Run_full_batch_failure f w path evs e :
  length (batch f) + 1 = batchSize f ->
  exec (length (invocations w)) (Command f) (Options f ++ batch f ++ [path]) = Some e ->
  let args := Options f ++ batch f ++ [path] in
  let f1 := set_batch f (batch f ++ [path]) in
  let w1 := mkWorld (invocations w ++ [(Command f, args)]) (completed w) (forwarded w) in
  Run exec (Recv path :: evs) f w = Some (apply exec f1 w1).
Proof.
  intros Hlen He args f1 w1. unfold Run. simpl.
  rewrite length_app. simpl.
  replace (length (batch f) + 1 =? batchSize f) with true
    by (symmetry; apply Nat.eqb_eq; lia).
  rewrite (apply_fails (set_batch f (batch f ++ [path])) w e); simpl; auto.
  by destruct (batch f).
Qed.

(** C8. When the select of Run yields the cancellation while the stage
    holds a batch (partially filled or not), Run returns the cancellation
    error at once: the stage and the outside are exactly as they were when
    the cancellation was observed, so the external program is not invoked on
    the batch, and no completion record or forwarding is made for its
    paths. *)
Theorem Run_cancel_discards_batch pre rest f w f1 w1 :
  loop exec pre f w = (f1, w1, None) ->
  Run exec (pre ++ CtxDone :: rest) f w = Some (f1, w1, Some Canceled).
Proof.
  intros H. unfold Run. by rewrite (loop_app_blocked pre _ f w f1 w1 H).
Qed.
End StageFacts.

Lemma Run_cancel_discards_batch_witness :
  Formatter.loop succeeds [Recv "a.go"; Recv "b.go"] gofmt Formatter.emptyWorld
  = (Formatter.set_batch gofmt ["a.go"; "b.go"], Formatter.emptyWorld, None)
  /\ Formatter.Run succeeds ([Recv "a.go"; Recv "b.go"] ++ CtxDone :: [Closed])
       gofmt Formatter.emptyWorld
     = Some (Formatter.set_batch gofmt ["a.go"; "b.go"], Formatter.emptyWorld,
             Some Canceled).
Proof.
  split; [reflexivity|].
  apply (Run_cancel_discards_batch succeeds [Recv "a.go"; Recv "b.go"]).
  reflexivity.
Defined.

(** C1, at a failing input. A stage as Init leaves it (batch size 1024)
    receives 1024 paths, and the external program exits with status 1. The
    flush inside the loop fails and leaves the loop with the named result
    still nil, so the final flush runs: the program is invoked a second time
    on the very same 1024 paths. *)
Theorem Run_reinvokes_failed_batch :
  let args := Formatter.Options gofmt ++ sourceFiles 1024 in
  exists f w,
    Formatter.Run fails (map Recv (sourceFiles 1024) ++ [Closed]) gofmt
                  Formatter.emptyWorld
    = Some (f, w, Some (ExitError 1))
    /\ Formatter.invocations w = [("gofmt", args); ("gofmt", args)]
    /\ Formatter.completed w = [].
Proof.
  eexists _, _. split; [vm_compute; reflexivity|]. split; vm_compute; reflexivity.
Qed.

(** C3, at a failing input. The same stage and paths, with a program that
    fails on its first invocation only. The flush inside the loop fails, the
    final flush invokes the program again and succeeds: Run returns nil, and
    every path of the batch gets a completion record, although an invocation
    failed during the run. *)
Theorem Run_returns_nil_after_failure :
  let args := Formatter.Options gofmt ++ sourceFiles 1024 in
  failsOnce 0 "gofmt" args = Some (ExitError 1)
  /\ exists f w,
       Formatter.Run failsOnce (map Recv (sourceFiles 1024) ++ [Closed]) gofmt
                     Formatter.emptyWorld
       = Some (f, w, None)
       /\ Formatter.invocations w = [("gofmt", args); ("gofmt", args)]
       /\ Formatter.completed w = sourceFiles 1024.
Proof.
  split; [reflexivity|].
  eexists _, _. split; [vm_compute; reflexivity|]. split; vm_compute; reflexivity.
Qed.

(** * Wants *)

(** Whatever the helper PathMatches computes, a formatter whose two glob
    lists are equal (both empty in particular) wants no path: the code
    conjoins the helper's answer with its negation. *)
Lemma Wants_any_helper (helper : string -> list Formatter.Glob -> bool) path globs :
  negb (helper path globs) && helper path globs = false.
Proof. by destruct (helper path globs). Qed.

(** C5, as amended. Wants(path) is true if and only if the path matches no
    exclude pattern and matches at least one include pattern; a formatter
    without include patterns wants no path. *)
Theorem Wants_spec (f : Formatter.Formatter) (path : string) :
  (Formatter.Wants f path = true <->
     (forall g, g ∈ Formatter.excludes f -> Formatter.Match g path = false)
     /\ (exists g, g ∈ Formatter.includes f /\ Formatter.Match g path = true))
  /\ (Formatter.includes f = [] -> Formatter.Wants f path = false).
Proof.
  unfold Formatter.Wants, Formatter.PathMatches. split.
  - rewrite andb_true_iff, negb_true_iff, existsb_exists.
    split.
    + intros [Hex Hin]. split.
      * intros g Hg. destruct (Formatter.Match g path) eqn:Hm; [|done].
        assert (existsb (fun g => Formatter.Match g path) (Formatter.excludes f) = true)
          as Hc by (apply existsb_exists; exists g; split; [by apply list_elem_of_In|done]).
        congruence.
      * destruct Hin as [g [Hg Hm]]. exists g. split; [by apply list_elem_of_In|done].
    + intros [Hex [g [Hg Hm]]]. split.
      * apply not_true_is_false. intros Hc. apply existsb_exists in Hc.
        destruct Hc as [g' [Hg' Hm']]. apply list_elem_of_In in Hg'.
        specialize (Hex g' Hg'). congruence.
      * exists g. split; [by apply list_elem_of_In|done].
  - intros ->. simpl. apply andb_false_r.
Qed.

(** C5 as stated fails. A formatter configured without include and exclude
    patterns comes out of Init with no globs; "main.go" then matches no
    exclude pattern and no include pattern is configured, but Wants is
    false. *)
Lemma Wants_no_includes_counterexample :
  exists f,
    Formatter.Init suffixGlob helpOk (configured "gofmt" ["-w"] [] [] []) "gofmt" = inl f
    /\ Formatter.Includes f = []
    /\ (forall g, g ∈ Formatter.excludes f -> Formatter.Match g "main.go" = false)
    /\ Formatter.Wants f "main.go" = false.
Proof.
  eexists. split; [reflexivity|]. simpl. split; [done|]. split; [|done].
  intros g Hg. by apply elem_of_nil in Hg.
Qed.

(** * Dependency cycle detection *)

Section CycleFacts.
Import Format.
Variable Formatters : gmap string FormatterCfg.
Variable name : string.
(** A set of configurations closed under "runs before", none of which ends
    the chain or names the formatter the walk started from. *)
Variable inside : FormatterCfg -> Prop.
Hypothesis inside_closed : forall c, inside c ->
  Before c <> "" /\ Before c <> name
  /\ exists c', Formatters !! Before c = Some c' /\ inside c'.

(** The inner loop compares every "runs before" name with the starting
    formatter only: once the chain is inside such a set the loop never
    leaves it, whatever the number of iterations. *)
Lemma follow_never_returns fuel : forall childName c history,
  inside c -> follow fuel Formatters name childName c history = None.
Proof.
  induction fuel as [|fuel IH]; intros childName c history Hc; [done|].
  simpl. destruct (inside_closed c Hc) as (Hne & Hnn & c' & Hl & Hc').
  rewrite bool_decide_eq_false_2 by done.
  rewrite bool_decide_eq_false_2 by done.
  rewrite Hl. by apply IH.
Qed.
End CycleFacts.

(** C2, at a failing input. When the range over the configured formatters
    visits black first, the walk from black enters the cycle isort -> ruff
    and never meets black again: for every bound on the number of iterations
    the validation is still running, so graph construction neither terminates
    nor reports the cycle. *)
Theorem cycle_detection_never_returns : forall fuel,
  Format.validate fuel tailIntoCycle ["black"; "isort"; "ruff"]
                  ["black"; "isort"; "ruff"] = None.
Proof.
  intros fuel. unfold Format.validate.
  assert (Format.detectBroken tailIntoCycle
            (Format.rangeOf tailIntoCycle ["black"; "isort"; "ruff"]) = None)
    as -> by (vm_compute; reflexivity).
  assert (Format.rangeOf tailIntoCycle ["black"; "isort"; "ruff"]
          = [("black", before "isort"); ("isort", before "ruff");
             ("ruff", before "isort")]) as -> by (vm_compute; reflexivity).
  simpl.
  rewrite (follow_never_returns tailIntoCycle "black"
             (fun c => c = before "isort" \/ c = before "ruff")); [done| |by left].
  intros c [-> | ->]; simpl; (split; [done|]); (split; [done|]).
  - exists (before "ruff"). split; [by vm_compute|by right].
  - exists (before "isort"). split; [by vm_compute|by left].
Qed.

(** The same configuration is rejected when the range happens to visit a
    formatter of the cycle first. *)
Lemma cycle_detection_order_dependent :
  Format.validate 3 tailIntoCycle ["isort"; "ruff"; "black"]
                  ["isort"; "ruff"; "black"]
  = Some (Some (Errorf "formatter cycle detected isort -> ruff")).
Proof. vm_compute. reflexivity. Qed.

(** * The completion drain *)
Section DrainFacts.
Import Format.
Variable Store : Type.
Variable Update : Store -> list string -> Store * nat * option error.
(** ErrFailOnChange is a value of package cli, which package cache cannot
    name: no error of cache.Update is that value. *)
Hypothesis Update_error : forall st paths st' count err,
  Update st paths = (st', count, Some err) -> err <> ErrFailOnChange.

Lemma processBatch_error cli d d' err :
  processBatch Store Update cli d = (d', Some err) -> err <> ErrFailOnChange.
Proof.
  unfold processBatch. destruct (NoCache cli); [discriminate|].
  destruct (Update (store Store d) (batch Store d)) as [[st count] [e|]] eqn:HU;
    intros H; inversion H; subst.
  by eapply Update_error.
Qed.

Lemma drainLoop_returned cli evs : forall d d' err,
  drainLoop Store Update cli evs d = (d', Returned err) -> err <> ErrFailOnChange.
Proof.
  induction evs as [|ev evs IH]; intros d d' err H; simpl in H; [discriminate|].
  destruct ev; try discriminate.
  - by inversion H.
  - destruct (_ =? _); [|by eapply IH].
    destruct (processBatch _ _ _ _) as [d2 [e|]] eqn:HP; [|by eapply IH].
    inversion H; subst. by eapply processBatch_error.
Qed.

(** C7. The drain returns ErrFailOnChange exactly when the policy is
    enabled, formatting completed successfully (the completion channel was
    closed and every cache update succeeded) and the final changed count is
    not zero. In particular, with the policy disabled or a zero changed
    count this failure is never returned. *)
Theorem fail_on_change_policy cli evs d d' res :
  drain Store Update cli evs d = Some (d', res) ->
  (res = Some ErrFailOnChange <->
     FailOnChange cli = true /\ changes Store d' <> 0
     /\ completes Store Update cli evs d).
Proof.
  unfold drain, completes.
  destruct (drainLoop Store Update cli evs d) as [d1 [|err|]] eqn:HL; [discriminate| |].
  - intros H; inversion H; subst. split.
    + intros He. inversion He; subst. by apply drainLoop_returned in HL.
    + intros (_ & _ & d1' & d2 & Hb & _). discriminate.
  - destruct (processBatch Store Update cli d1) as [d2 [e|]] eqn:HP.
    + intros H; inversion H; subst. split.
      * intros He. inversion He; subst. by apply processBatch_error in HP.
      * intros (_ & _ & d1' & d2' & Hb & Hp). inversion Hb; subst. congruence.
    + destruct (FailOnChange cli) eqn:HF; simpl.
      * destruct (changes Store d2 =? 0) eqn:HC; simpl;
          intros H; inversion H; subst.
        -- apply Nat.eqb_eq in HC. split; [discriminate|]. intros (_ & Hn & _). done.
        -- apply Nat.eqb_neq in HC. split; [|done]. intros _.
           split; [done|]. split; [done|]. by exists d1, d'.
      * intros H; inversion H; subst. split; [discriminate|].
        intros (Hf & _). discriminate.
Qed.

(** In the no-cache mode every completed path is added to the changed
    count, whatever the tree and the store hold. *)
Lemma drainLoop_no_cache cli paths rest : forall d,
  NoCache cli = true ->
  exists d1,
    drainLoop Store Update cli (map Recv paths ++ Closed :: rest) d = (d1, Broke)
    /\ store Store d1 = store Store d
    /\ changes Store d1 + length (batch Store d1)
       = changes Store d + length (batch Store d) + length paths.
Proof.
  induction paths as [|p paths IH]; intros d HN; simpl.
  - exists d. repeat split; lia.
  - destruct (_ =? _) eqn:Hfull.
    + unfold processBatch. rewrite HN. simpl.
      edestruct IH as (d1 & -> & Hs & Hc); [done|].
      exists d1. split; [done|]. split; [done|].
      simpl in Hc. rewrite length_app in Hc. simpl in Hc. lia.
    + edestruct IH as (d1 & -> & Hs & Hc); [done|].
      exists d1. split; [done|]. split; [done|].
      simpl in Hc. rewrite length_app in Hc. simpl in Hc. lia.
Qed.

Lemma drain_no_cache cli paths rest d :
  NoCache cli = true ->
  exists d' res,
    drain Store Update cli (map Recv paths ++ Closed :: rest) d = Some (d', res)
    /\ store Store d' = store Store d
    /\ changes Store d' = changes Store d + length (batch Store d) + length paths.
Proof.
  intros HN. destruct (drainLoop_no_cache cli paths rest d HN) as (d1 & HL & Hs & Hc).
  unfold drain. rewrite HL. unfold processBatch. rewrite HN.
  destruct (FailOnChange cli && _); eexists _, _; (split; [done|]); simpl;
    (split; [done|lia]).
Qed.
End DrainFacts.

Lemma fail_on_change_policy_witness :
  let cli := Format.mkCli false true in
  let Update := cache.Update onDisk formatterSet in
  exists d',
    Format.drain _ Update cli [Recv "main.go"; Closed] (Format.mkDrain _ ∅ [] 0)
    = Some (d', Some ErrFailOnChange)
    /\ (Some ErrFailOnChange = Some ErrFailOnChange <->
          Format.FailOnChange cli = true /\ Format.changes _ d' <> 0
          /\ Format.completes _ Update cli [Recv "main.go"; Closed]
               (Format.mkDrain _ ∅ [] 0)).
Proof.
  intros cli Update. eexists. split; [vm_compute; reflexivity|].
  apply (fail_on_change_policy _ Update).
  - intros st paths st' count err H. unfold Update, cache.Update in H. by inversion H.
  - vm_compute. reflexivity.
Defined.

(** C4, at a failing input. The store holds "main.go" with the digest the
    file has on disk, so recording its completion counts no changed path. In
    the no-cache mode the drain adds the whole batch to the changed count
    instead: the run reports one changed path. *)
Theorem no_cache_counts_unchanged_path :
  let cli := Format.mkCli true false in
  let Update := cache.Update onDisk formatterSet in
  (cache.recordCompletion onDisk formatterSet formattedStore ["main.go"]).2 = 0
  /\ exists d',
       Format.drain _ Update cli [Recv "main.go"; Closed]
                    (Format.mkDrain _ formattedStore [] 0)
       = Some (d', None)
       /\ Format.changes _ d' = 1.
Proof.
  split; [vm_compute; reflexivity|].
  eexists. split; [vm_compute; reflexivity|reflexivity].
Qed.

(** * The path source of the no-cache mode *)

Lemma land_bit (m k : Z) :
  (0 <= k)%Z ->
  Z.land m (Z.shiftl 1 k) = if Z.testbit m k then Z.shiftl 1 k else 0%Z.
Proof.
  intros Hk. rewrite Z.shiftl_1_l. apply Z.bits_inj'. intros n Hn.
  rewrite Z.land_spec, Z.pow2_bits_eqb by done.
  destruct (Z.testbit m k) eqn:Hb.
  - rewrite Z.pow2_bits_eqb by done.
    destruct (Z.eqb_spec k n) as [->|]; [by rewrite Hb|apply andb_false_r].
  - rewrite Z.bits_0.
    destruct (Z.eqb_spec k n) as [->|]; [by rewrite Hb|apply andb_false_r].
Qed.

Lemma walkFn_keeps ctx poll pathsCh path info :
  ctxDone ctx poll = false ->
  Format.walkFn ctx poll pathsCh path info
  = (if neitherDirNorSymlink (path, info) then pathsCh ++ [path] else pathsCh, None).
Proof.
  intros Hd. unfold Format.walkFn, neitherDirNorSymlink, IsDir, ModeDir, ModeSymlink.
  rewrite Hd. cbn [snd]. rewrite !land_bit by lia.
  generalize (Z.testbit (Mode info) 31) (Z.testbit (Mode info) 27).
  by intros [] [].
Qed.

Lemma Walk_sends ctx : forall entries poll pathsCh,
  exists k,
    k <= length entries
    /\ (Format.Walk ctx poll entries pathsCh).1
       = pathsCh ++ map fst (List.filter neitherDirNorSymlink (take k entries))
    /\ (ctx = None -> k = length entries).
Proof.
  induction entries as [|[path info] rest IH]; intros poll pathsCh.
  - exists 0. simpl. rewrite app_nil_r. by repeat split.
  - simpl. destruct (ctxDone ctx poll) eqn:Hd.
    + exists 0. unfold Format.walkFn. rewrite Hd. simpl. rewrite app_nil_r.
      split; [lia|]. split; [done|]. intros ->. discriminate.
    + rewrite walkFn_keeps by done.
      destruct (IH (S poll)
                  (if neitherDirNorSymlink (path, info) then pathsCh ++ [path]
                   else pathsCh)) as (k & Hk & -> & Hall).
      exists (S k). split; [lia|]. split; [|intros Hc; by rewrite (Hall Hc)].
      simpl. destruct (neitherDirNorSymlink (path, info)); [|done].
      simpl. by rewrite <- app_assoc.
Qed.




(** * Reruns *)
Section RerunFacts.
Import Format.
Variable disk : string -> cache.Signature.
Variable current : string.

Abbreviation record := (cache.recordCompletion disk current).
Abbreviation isChanged := (cache.isChanged disk current).
Abbreviation Update := (cache.Update disk current).
Abbreviation ChangeSet := (cache.ChangeSet disk current).

Lemma record_app a : forall st b,
  (record st (a ++ b)).1 = (record (record st a).1 b).1.
Proof.
  induction a as [|p a IH]; intros st b; [done|]. simpl.
  specialize (IH (<[p := cache.mkEntry (disk p) current]> st) b).
  destruct (record _ (a ++ b)) as [s1 c1], (record _ a) as [s2 c2]. simpl in *.
  by rewrite IH.
Qed.

Lemma record_lookup_other paths : forall st p,
  p ∉ paths -> (record st paths).1 !! p = st !! p.
Proof.
  induction paths as [|q paths IH]; intros st p Hp; [done|]. simpl.
  apply not_elem_of_cons in Hp as [Hne Hp].
  specialize (IH (<[q := cache.mkEntry (disk q) current]> st) p Hp).
  destruct (record _ paths) as [s c]. simpl in *.
  rewrite IH. by apply lookup_insert_ne.
Qed.

Lemma record_lookup paths : forall st p,
  p ∈ paths -> (record st paths).1 !! p = Some (cache.mkEntry (disk p) current).
Proof.
  induction paths as [|q paths IH]; intros st p Hp; [by apply elem_of_nil in Hp|].
  simpl. destruct (decide (p ∈ paths)) as [Hin|Hnin].
  - specialize (IH (<[q := cache.mkEntry (disk q) current]> st) p Hin).
    by destruct (record _ paths).
  - apply elem_of_cons in Hp as [->|Hp]; [|done].
    pose proof (record_lookup_other paths
                  (<[q := cache.mkEntry (disk q) current]> st) q Hnin) as H.
    destruct (record _ paths) as [s c]. simpl in *.
    rewrite H. apply lookup_insert_eq.
Qed.

(** A recorded path is no longer changed; the others are as before. *)
Lemma isChanged_recorded st paths p :
  isChanged (record st paths).1 p = true -> (p ∉ paths) /\ isChanged st p = true.
Proof.
  unfold cache.isChanged. destruct (decide (p ∈ paths)) as [Hin|Hnin].
  - rewrite (record_lookup paths st p Hin). simpl.
    rewrite !bool_decide_eq_true_2 by done. discriminate.
  - by rewrite (record_lookup_other paths st p Hnin).
Qed.

Lemma changeSetFrom_never_cancelled st : forall entries poll pathsCh,
  cache.changeSetFrom disk current st None poll entries pathsCh
  = (pathsCh ++ List.filter (isChanged st) (map fst entries), None).
Proof.
  induction entries as [|[p info] rest IH]; intros poll pathsCh; simpl.
  - by rewrite app_nil_r.
  - rewrite IH. destruct (isChanged st p); [|done]. by rewrite <- app_assoc.
Qed.

Lemma drainLoop_cached cli paths rest : forall d,
  NoCache cli = false ->
  exists d1,
    drainLoop _ Update cli (map Recv paths ++ Closed :: rest) d = (d1, Broke)
    /\ (record (store _ d1) (batch _ d1)).1
       = (record (store _ d) (batch _ d ++ paths)).1.
Proof.
  induction paths as [|p paths IH]; intros d HN; simpl.
  - exists d. by rewrite app_nil_r.
  - assert (batch _ d ++ p :: paths = (batch _ d ++ [p]) ++ paths) as Hl
      by (by rewrite <- app_assoc).
    destruct (_ =? _).
    + unfold processBatch, cache.Update. rewrite HN. simpl.
      destruct (record (store _ d) (batch _ d ++ [p])) as [s c] eqn:HR.
      edestruct IH as (d1 & -> & Hs); [done|]. exists d1. split; [done|].
      rewrite Hs, Hl. simpl. rewrite (record_app (batch _ d ++ [p])).
      by rewrite HR.
    + edestruct IH as (d1 & -> & Hs); [done|]. exists d1. split; [done|].
      by rewrite Hs, Hl.
Qed.

(** With the cache in use, the drain leaves in the store what recording all
    the completed paths at once gives: batching does not show. *)
Lemma drain_cached cli paths st d' res :
  NoCache cli = false ->
  drain _ Update cli (map Recv paths ++ [Closed]) (mkDrain _ st [] 0) = Some (d', res) ->
  store _ d' = (record st paths).1.
Proof.
  intros HN. unfold drain.
  destruct (drainLoop_cached cli paths [] (mkDrain _ st [] 0) HN) as (d1 & -> & Hs).
  simpl in Hs. unfold processBatch, cache.Update. rewrite HN.
  destruct (record (store _ d1) (batch _ d1)) as [s c] eqn:HR. simpl in Hs. subst s.
  destruct (FailOnChange cli && _); intros H; by inversion H.
Qed.

Lemma dispatch_In formatters paths name p :
  In (name, p) (dispatch formatters paths) <->
  In p paths /\ exists f, In f formatters /\ Formatter.Wants f p = true
                          /\ Formatter.Name f = name.
Proof.
  unfold dispatch. rewrite in_flat_map. split.
  - intros (q & Hq & Hin). apply in_flat_map in Hin as (f & Hf & Hin).
    destruct (Formatter.Wants f q) eqn:HW; [|done].
    destruct Hin as [Heq|[]]. inversion Heq; subst. eauto.
  - intros (Hp & f & Hf & HW & Hn). exists p. split; [done|].
    apply in_flat_map. exists f. split; [done|]. rewrite HW, Hn. by left.
Qed.

End RerunFacts.



(** * The git reader *)
Section ReadFacts.
Import GitReader.
Variable filepathJoin : list string -> string.
Variable Stat : string -> FileInfo + error.
Variable lsFiles : string -> list string.

Abbreviation readLoop := (GitReader.readLoop filepathJoin Stat).
Abbreviation Read := (GitReader.Read filepathJoin Stat lsFiles).
Abbreviation listing := (GitReader.listing filepathJoin lsFiles).
Abbreviation removed := (GitReader.removed filepathJoin Stat).
Abbreviation withoutRemoved := (GitReader.withoutRemoved filepathJoin Stat lsFiles).

Lemma readLoop_full g ctx poll lines files n :
  (n <? length files) = false ->
  readLoop g ctx poll lines files n = (lines, files, n, None).
Proof. intros H. destruct lines; simpl; by rewrite H. Qed.

(** What the loop writes: slots n to n', each with a file whose stat
    succeeded; nothing else changes, and a stat error it returns is not a
    non-existence. *)
Lemma readLoop_inv g ctx lines : forall poll files n rest files' n' err,
  n <= length files ->
  readLoop g ctx poll lines files n = (rest, files', n', err) ->
  n <= n' /\ n' <= length files /\ length files' = length files
  /\ (forall i, i < n \/ n' <= i -> files' !! i = files !! i)
  /\ (forall i, n <= i -> i < n' ->
        exists text info,
          In text lines
          /\ Stat (filepathJoin [root g; path g; text]) = inl info
          /\ files' !! i
             = Some (Some (mkFile (filepathJoin [root g; path g; text])
                                  (filepathJoin [path g; text]) info)))
  /\ (forall msg e, err = Some (Wrapf msg e) -> IsNotExist (Some e) = false).
Proof.
  induction lines as [|text lines IH]; intros poll files n rest files' n' err Hn H.
  - simpl in H. destruct (n <? length files), (ctxDone ctx poll);
      inversion H; subst; repeat split; try lia; try done; intros; lia.
  - simpl in H. destruct (n <? length files) eqn:Hlt;
      [|inversion H; subst; repeat split; try lia; try done; intros; lia].
    apply Nat.ltb_lt in Hlt.
    destruct (ctxDone ctx poll);
      [inversion H; subst; repeat split; try lia; try done; intros; lia|].
    destruct (Stat _) as [info|e] eqn:HS.
    + apply IH in H; [|rewrite length_insert; lia].
      destruct H as (H1 & H2 & H3 & H4 & H5 & H6).
      rewrite length_insert in H2, H3.
      split; [lia|]. split; [lia|]. split; [done|]. split; [|split; [|done]].
      * intros i Hi. rewrite H4 by lia. apply list_lookup_insert_ne. lia.
      * intros i Hi1 Hi2. destruct (decide (i = n)) as [->|Hne].
        -- exists text, info. split; [by left|]. split; [done|].
           rewrite H4 by lia. by apply list_lookup_insert_eq.
        -- destruct (H5 i) as (t & inf & Ht & Hst & Hl); [lia|lia|].
           exists t, inf. split; [by right|]. by split.
    + destruct (IsNotExist (Some e)) eqn:HE.
      * apply IH in H; [|done]. destruct H as (H1 & H2 & H3 & H4 & H5 & H6).
        repeat split; try done. intros i Hi1 Hi2.
        destruct (H5 i Hi1 Hi2) as (t & inf & Ht & Hst & Hl).
        exists t, inf. split; [by right|]. by split.
      * inversion H; subst. repeat split; try lia; try done.
        intros msg e' He'. by inversion He'; subst.
Qed.

(** Without cancellation the loop gives the same slice, n and err when the
    removed paths are taken out of the lines. *)
Lemma readLoop_without_removed g lines : forall poll poll' files n,
  outcome (readLoop g None poll lines files n)
  = outcome (readLoop g None poll'
               (List.filter (fun text => negb (removed g text)) lines) files n).
Proof.
  induction lines as [|text lines IH]; intros poll poll' files n.
  - simpl. by destruct (n <? length files).
  - destruct (n <? length files) eqn:Hlt; [|by rewrite !readLoop_full].
    simpl List.filter. unfold removed at 1.
    simpl readLoop at 1. rewrite Hlt. simpl ctxDone. cbv iota.
    destruct (Stat _) as [info|e] eqn:HS; simpl negb; cbv iota.
    + simpl. rewrite Hlt, HS. apply IH.
    + destruct (IsNotExist (Some e)) eqn:HE; simpl negb; cbv iota.
      * apply IH.
      * simpl. by rewrite Hlt, HS, HE.
Qed.
Lemma readLoop_same_dir g1 g2 ctx lines : forall poll files n,
  root g1 = root g2 -> path g1 = path g2 ->
  readLoop g1 ctx poll lines files n = readLoop g2 ctx poll lines files n.
Proof.
  induction lines as [|text lines IH]; intros poll files n Hr Hp; [done|].
  simpl. rewrite Hr, Hp. destruct (n <? length files); [|done].
  destruct (ctxDone ctx poll); [done|].
  destruct (Stat _); [by apply IH|].
  destruct (IsNotExist _); [by apply IH|done].
Qed.

(** C10. A listed path whose file no longer exists is skipped without an
    error. Read counts in n, and in the traversed statistic, only slots it
    has filled, and every filled slot holds a listed path whose stat
    succeeded (so none that was removed); the other slots are untouched; an
    error wrapping a stat failure is never a non-existence; and, when the
    context is not cancelled, the slice, n, err and the statistic are those
    of the reader whose listing leaves the removed paths out. *)
Theorem Read_skips_removed g ctx files g' files' n err :
  Read g ctx files = (g', files', n, err) ->
  n <= length files
  /\ Traversed g' = Traversed g + n
  /\ (forall i, i < n ->
        exists text info,
          In text (listing g) /\ removed g text = false
          /\ Stat (filepathJoin [root g; path g; text]) = inl info
          /\ files' !! i
             = Some (Some (mkFile (filepathJoin [root g; path g; text])
                                  (filepathJoin [path g; text]) info)))
  /\ (forall i, n <= i -> files' !! i = files !! i)
  /\ (forall msg e, err = Some (Wrapf msg e) -> IsNotExist (Some e) = false)
  /\ (ctx = None ->
        exists g'', Read (withoutRemoved g) None files = (g'', files', n, err)
                    /\ Traversed g'' = Traversed g').
Proof.
  unfold GitReader.Read. fold (listing g).
  destruct (readLoop g ctx 0 (listing g) files 0) as [[[rest fs] m] e] eqn:HL.
  intros H. inversion H; subst. clear H.
  pose proof (readLoop_inv g ctx (listing g) 0 files 0 rest files' n err
                (Nat.le_0_l _) HL) as (H1 & H2 & H3 & H4 & H5 & H6).
  split; [done|]. split; [done|]. split; [|split; [|split; [done|]]].
  - intros i Hi. destruct (H5 i (Nat.le_0_l _) Hi) as (t & inf & Ht & Hst & Hl).
    exists t, inf. split; [done|]. split; [by unfold removed; rewrite Hst|by split].
  - intros i Hi. apply H4. by right.
  - intros ->. simpl.
    pose proof (readLoop_without_removed g (listing g) 0 0 files 0) as Hout.
    rewrite HL in Hout.
    rewrite (readLoop_same_dir (withoutRemoved g) g) by done.
    destruct (readLoop g None 0
                (List.filter (fun text => negb (removed g text)) (listing g))
                files 0) as [[[rest2 fs2] m2] e2] eqn:HL2.
    unfold outcome in Hout. simpl in Hout.
    injection Hout as <- <- <-.
    eexists. split; [reflexivity|done].
Qed.
End ReadFacts.

Lemma Read_skips_removed_witness :
  exists g' files',
    GitReader.Read joinPath statTree gitIndex reader None [None; None; None]
    = (g', files', 2, Some EOF)
    /\ GitReader.Traversed g' = 2
    /\ files' !! 1
       = Some (Some (GitReader.mkFile "/repo/treefmt.toml" "treefmt.toml" regularFile))
    /\ files' !! 2 = Some None.
Proof.
  eexists _, _. split; [vm_compute; reflexivity|].
  pose proof (Read_skips_removed joinPath statTree gitIndex reader None
                [None; None; None] _ _ 2 (Some EOF) eq_refl)
    as (_ & Ht & _ & Hrest & _).
  split; [exact Ht|]. split; [reflexivity|]. exact (Hrest 2 (le_n 2)).
Defined.

(** * More on the formatter stage *)
Section StageMore.
Import Formatter.
Variable exec : nat -> string -> list string -> option error.

Lemma foldl_MarkFormatComplete paths : forall w,
  foldl MarkFormatComplete w paths
  = mkWorld (invocations w) (completed w ++ paths) (forwarded w).
Proof.
  induction paths as [|p paths IH]; intros [i c fw]; simpl.
  - by rewrite app_nil_r.
  - rewrite IH. simpl. by rewrite <- app_assoc.
Qed.

Lemma foldl_ForwardPath before paths : forall w,
  foldl (ForwardPath before) w paths
  = mkWorld (invocations w) (completed w)
            (forwarded w ++ map (fun path => (path, before)) paths).
Proof.
  induction paths as [|p paths IH]; intros [i c fw]; simpl.
  - by rewrite app_nil_r.
  - rewrite IH. simpl. by rewrite <- app_assoc.
Qed.

Lemma set_batch_same f : set_batch f (batch f) = f.
Proof. by destruct f. Qed.

(** The three ways a flush ends. *)
Lemma apply_cases f w :
  (batch f = [] /\ apply exec f w = (f, w, None))
  \/ (batch f <> []
      /\ exists err,
           exec (length (invocations w)) (Command f) (Options f ++ batch f) = Some err
           /\ apply exec f w
              = (f, mkWorld (invocations w ++ [(Command f, Options f ++ batch f)])
                            (completed w) (forwarded w), Some err))
  \/ (batch f <> []
      /\ exec (length (invocations w)) (Command f) (Options f ++ batch f) = None
      /\ apply exec f w
         = (set_batch f [],
            handedOn f (mkWorld (invocations w ++ [(Command f, Options f ++ batch f)])
                                (completed w) (forwarded w)) (batch f),
            None)).
Proof.
  unfold apply. destruct (length (batch f) =? 0) eqn:Hlen.
  - left. apply Nat.eqb_eq in Hlen. split; [by destruct (batch f)|done].
  - apply Nat.eqb_neq in Hlen.
    assert (batch f <> []) as Hne by (intros Hb; by rewrite Hb in Hlen).
    destruct (exec _ _ _) as [err|] eqn:He.
    + right. left. split; [done|]. by exists err.
    + right. right. split; [done|]. split; [done|].
      unfold handedOn. destruct (length (Before f) =? 0).
      * by rewrite foldl_MarkFormatComplete.
      * by rewrite foldl_ForwardPath.
Qed.

(** X1. A flush does nothing on an empty batch. Otherwise it invokes the program
    exactly once, with the options followed by every batched path; when the
    invocation fails the batch is kept and no path is handed on; when it
    succeeds every path of the batch is handed on, in order (a completion
    record without Before, a forward otherwise), and the batch is reset. *)
Theorem apply_flush f w :
  apply exec f w
  = match batch f with
    | [] => (f, w, None)
    | _ :: _ =>
        let w1 := mkWorld (invocations w ++ [(Command f, Options f ++ batch f)])
                          (completed w) (forwarded w) in
        match exec (length (invocations w)) (Command f) (Options f ++ batch f) with
        | Some err => (f, w1, Some err)
        | None => (set_batch f [], handedOn f w1 (batch f), None)
        end
    end.
Proof.
  destruct (apply_cases f w) as [[Hb ->]|[(Hb & err & He & ->)|(Hb & He & ->)]].
  - by rewrite Hb.
  - rewrite He. by destruct (batch f).
  - rewrite He. by destruct (batch f).
Qed.

Lemma loop_short paths rest : forall f w,
  length (batch f ++ paths) < batchSize f ->
  loop exec (map Recv paths ++ Closed :: rest) f w
  = (set_batch f (batch f ++ paths), w, Some None).
Proof.
  induction paths as [|p paths IH]; intros f w Hlen; simpl.
  - by rewrite app_nil_r, set_batch_same.
  - rewrite length_app in *. simpl in *.
    replace (length (batch f) + 1 =? batchSize f) with false
      by (symmetry; apply Nat.eqb_neq; lia).
    rewrite IH; simpl; [|rewrite !length_app; simpl; lia].
    by rewrite <- app_assoc.
Qed.

(** X2. When the paths received before the inbox is closed do not fill the
    batch, Run is one flush of all of them: a single invocation of the
    program, whose error, if any, is what Run returns. *)
Theorem Run_short_input paths rest f w :
  length (batch f ++ paths) < batchSize f ->
  Run exec (map Recv paths ++ Closed :: rest) f w
  = Some (apply exec (set_batch f (batch f ++ paths)) w).
Proof. intros Hlen. unfold Run. by rewrite loop_short. Qed.

Lemma loop_within_batch evs : forall f w f1 w1 r,
  length (batch f) < batchSize f ->
  loop exec evs f w = (f1, w1, r) ->
  Command f1 = Command f /\ Options f1 = Options f /\ batchSize f1 = batchSize f
  /\ length (batch f1) <= batchSize f
  /\ exists new, invocations w1 = invocations w ++ new /\ Forall (withinBatch f) new.
Proof.
  induction evs as [|ev evs IH]; intros f w f1 w1 r Hlen H; simpl in H.
  - inversion H; subst. repeat split; try lia. exists []. by rewrite app_nil_r.
  - destruct ev.
    + inversion H; subst. repeat split; try lia. exists []. by rewrite app_nil_r.
    + rewrite length_app in H. simpl in H.
      destruct (length (batch f) + 1 =? batchSize f) eqn:Hfull.
      * apply Nat.eqb_eq in Hfull.
        pose (f0 := set_batch f (batch f ++ [path])).
        assert (withinBatch f (Command f, Options f ++ batch f ++ [path])) as Hin.
        { exists (batch f ++ [path]). rewrite length_app. simpl. repeat split; lia. }
        destruct (apply_cases f0 w) as [[Hb _]|[(_ & err & _ & Ha)|(_ & _ & Ha)]].
        -- simpl in Hb. by destruct (batch f).
        -- fold f0 in H. rewrite Ha in H. inversion H; subst. simpl.
           rewrite length_app. simpl. repeat split; try lia.
           exists [(Command f, Options f ++ batch f ++ [path])]. split; [done|].
           by constructor.
        -- fold f0 in H. rewrite Ha in H.
           apply IH in H; [|simpl; lia].
           destruct H as (H1 & H2 & H3 & H4 & new & Hn & Hall). simpl in *.
           repeat split; try done.
           exists ((Command f, Options f ++ batch f ++ [path]) :: new). split.
           ++ rewrite Hn. unfold handedOn. simpl.
              destruct (length (Before f) =? 0); simpl; by rewrite <- app_assoc.
           ++ by constructor.
      * apply Nat.eqb_neq in Hfull. apply IH in H; [|simpl; rewrite length_app; simpl; lia].
        destruct H as (H1 & H2 & H3 & H4 & new & Hn & Hall). simpl in *.
        by repeat split; try done; exists new.
    + inversion H; subst. repeat split; try lia. exists []. by rewrite app_nil_r.
Qed.

(** X3. Started with a batch that is not full, every invocation Run makes
    passes the options followed by at least one and at most batchSize paths,
    whatever the events and the program do. *)
Theorem Run_within_batch evs f w f' w' r :
  length (batch f) < batchSize f ->
  Run exec evs f w = Some (f', w', r) ->
  exists new, invocations w' = invocations w ++ new /\ Forall (withinBatch f) new.
Proof.
  intros Hlen. unfold Run.
  destruct (loop exec evs f w) as [[f1 w1] [[e|]|]] eqn:HL; [| |discriminate].
  - intros H; inversion H; subst.
    by destruct (loop_within_batch evs f w f' w' _ Hlen HL) as (_ & _ & _ & _ & Hnew).
  - destruct (loop_within_batch evs f w f1 w1 _ Hlen HL)
      as (Hc & Ho & Hs & Hb & new & Hn & Hall).
    assert (withinBatch f (Command f1, Options f1 ++ batch f1) \/ batch f1 = []) as Hin.
    { destruct (batch f1) as [|p b] eqn:Hb1; [by right|left].
      exists (p :: b). rewrite Hc, Ho. simpl in *. repeat split; lia. }
    destruct (apply_cases f1 w1) as [[Hb1 ->]|[(Hb1 & err & _ & ->)|(Hb1 & _ & ->)]];
      intros H; injection H as <- <- <-.
    + by exists new.
    + destruct Hin as [Hin|Hin]; [|done].
      exists (new ++ [(Command f1, Options f1 ++ batch f1)]). simpl. rewrite Hn.
      split; [by rewrite <- app_assoc|]. apply Forall_app. split; [done|by constructor].
    + destruct Hin as [Hin|Hin]; [|done].
      exists (new ++ [(Command f1, Options f1 ++ batch f1)]). split.
      * unfold handedOn. destruct (length (Before f1) =? 0); simpl; rewrite Hn;
          by rewrite <- app_assoc.
      * apply Forall_app. split; [done|by constructor].
Qed.

Lemma handedOn_app f w a b :
  handedOn f (handedOn f w a) b = handedOn f w (a ++ b).
Proof.
  unfold handedOn. destruct (length (Before f) =? 0); simpl.
  - by rewrite <- app_assoc.
  - by rewrite map_app, <- app_assoc.
Qed.

Lemma handedOn_same_before f1 f2 w paths :
  Before f1 = Before f2 -> handedOn f1 w paths = handedOn f2 w paths.
Proof. intros H. unfold handedOn. by rewrite H. Qed.

Lemma handedOn_invocations f i c fw paths :
  completed (handedOn f (mkWorld i c fw) paths)
  = completed (handedOn f (mkWorld [] c fw) paths)
  /\ forwarded (handedOn f (mkWorld i c fw) paths)
     = forwarded (handedOn f (mkWorld [] c fw) paths).
Proof. unfold handedOn. by destruct (length (Before f) =? 0). Qed.

Section ProgramSucceeds.
Hypothesis exec_ok : forall k command args, exec k command args = None.

Lemma loop_hands_on paths rest : forall f w,
  exists f1 w1,
    loop exec (map Recv paths ++ Closed :: rest) f w = (f1, w1, Some None)
    /\ Before f1 = Before f /\ Command f1 = Command f /\ Options f1 = Options f
    /\ handedOn f (mkWorld [] (completed w1) (forwarded w1)) (batch f1)
       = handedOn f (mkWorld [] (completed w) (forwarded w)) (batch f ++ paths).
Proof.
  induction paths as [|p paths IH]; intros f w; simpl.
  - exists f, w. by rewrite app_nil_r.
  - destruct (_ =? _) eqn:Hfull.
    +       pose (f0 := set_batch f (batch f ++ [p])).
      destruct (apply_cases f0 w) as [[Hb _]|[(_ & err & He & _)|(_ & _ & Ha)]].
      * simpl in Hb. by destruct (batch f).
      * by rewrite exec_ok in He.
      * fold f0. rewrite Ha.
        destruct (IH (set_batch f0 [])
                     (handedOn f0 (mkWorld (invocations w ++ [(Command f0, Options f0 ++ batch f0)])
                                           (completed w) (forwarded w)) (batch f0)))
          as (f1 & w1 & -> & H1 & H2 & H3 & H4).
        exists f1, w1. split; [done|]. simpl in *. repeat split; try done.
        rewrite !(handedOn_same_before (set_batch f0 []) f) in H4 by done.
        rewrite H4. clear. unfold handedOn. simpl.
        destruct (length (Before f) =? 0); simpl;
          by rewrite ?map_app, <- ?app_assoc.
    + destruct (IH (set_batch f (batch f ++ [p])) w) as (f1 & w1 & -> & H1 & H2 & H3 & H4).
      exists f1, w1. split; [done|]. simpl in *. repeat split; try done.
      rewrite !(handedOn_same_before (set_batch f (batch f ++ [p])) f) in H4 by done.
      rewrite H4. clear. unfold handedOn. simpl.
      destruct (length (Before f) =? 0); simpl; by rewrite <- ?app_assoc.
Qed.

(** X4. With a program that succeeds, Run hands on every path it has received
    before the inbox is closed exactly once and in the order received, after
    those already batched, and returns nil with an empty batch. *)
Theorem Run_hands_on_every_path paths rest f w :
  exists f' w',
    Run exec (map Recv paths ++ Closed :: rest) f w = Some (f', w', None)
    /\ batch f' = []
    /\ completed w' = completed (handedOn f w (batch f ++ paths))
    /\ forwarded w' = forwarded (handedOn f w (batch f ++ paths)).
Proof.
  destruct (loop_hands_on paths rest f w) as (f1 & w1 & HL & Hb & Hc & Ho & Hh).
  unfold Run. rewrite HL.
  assert (completed (handedOn f w1 (batch f1)) = completed (handedOn f w (batch f ++ paths))
          /\ forwarded (handedOn f w1 (batch f1))
             = forwarded (handedOn f w (batch f ++ paths))) as [Hcm Hfw].
  { destruct w as [i c fw], w1 as [i1 c1 fw1]. simpl in Hh.
    destruct (handedOn_invocations f i c fw (batch f ++ paths)) as [-> ->].
    destruct (handedOn_invocations f i1 c1 fw1 (batch f1)) as [-> ->].
    by rewrite Hh. }
  destruct (apply_cases f1 w1) as [[Hb1 ->]|[(_ & err & He & _)|(Hb1 & _ & ->)]].
  - exists f1, w1. split; [done|]. split; [done|].
    rewrite <- Hcm, <- Hfw, Hb1. unfold handedOn.
    destruct (length (Before f) =? 0); simpl; by rewrite app_nil_r.
  - by rewrite exec_ok in He.
  - eexists _, _. split; [done|]. split; [done|].
    rewrite <- Hcm, <- Hfw. unfold handedOn. rewrite Hb. destruct w1.
    by destruct (length (Before f) =? 0).
Qed.

(** X5. With a program that succeeds, Run does not return while paths keep
    arriving: it returns only once the inbox is closed or the cancellation is
    observed. *)
Theorem Run_waits_for_close paths : forall f w,
  Run exec (map Recv paths) f w = None.
Proof.
  unfold Run. induction paths as [|p paths IH]; intros f w; simpl; [done|].
  destruct (_ =? _); [|apply IH].
  pose (f0 := set_batch f (batch f ++ [p])).
  destruct (apply_cases f0 w) as [[_ Ha]|[(_ & err & He & _)|(_ & _ & Ha)]].
  - fold f0. rewrite Ha. apply IH.
  - by rewrite exec_ok in He.
  - fold f0. rewrite Ha. apply IH.
Qed.
End ProgramSucceeds.
End StageMore.

(** * Init *)
Section InitFacts.
Import Formatter.
Variable Compile : string -> Glob + error.
Variable helpRun : string -> option error.

Lemma compileAll_ok patterns : forall acc globs,
  compileAll Compile patterns acc = inl globs <->
  exists new, globs = acc ++ new /\ Forall2 (compilesTo Compile) patterns new.
Proof.
  induction patterns as [|pattern rest IH]; intros acc globs; simpl.
  - split.
    + intros H; inversion H; subst. exists []. by rewrite app_nil_r.
    + intros (new & -> & HF). inversion HF; subst. by rewrite app_nil_r.
  - destruct (Compile ("**/" +:+ pattern)) as [g|e] eqn:HC.
    + rewrite IH. split.
      * intros (new & -> & HF). exists (g :: new). rewrite <- app_assoc.
        split; [done|]. by constructor.
      * intros (new & -> & HF). inversion HF as [|? g' ? new' Hg HF']; subst.
        unfold compilesTo in Hg. rewrite HC in Hg. inversion Hg; subst.
        exists new'. by rewrite <- app_assoc.
    + split; [discriminate|].
      intros (new & _ & HF). inversion HF as [|? g' ? new' Hg HF']; subst.
      unfold compilesTo in Hg. congruence.
Qed.

Lemma compileAll_error patterns : forall acc pattern err,
  compileAll Compile patterns acc = inr (pattern, err) ->
  In pattern patterns /\ Compile ("**/" +:+ pattern) = inr err.
Proof.
  induction patterns as [|p rest IH]; intros acc pattern err; simpl; [discriminate|].
  destruct (Compile ("**/" +:+ p)) as [g|e] eqn:HC.
  - intros H. apply IH in H as [Hin Hc]. split; [by right|done].
  - intros H; inversion H; subst. split; [by left|done].
Qed.

(** X6. A successful Init has found the command, names the formatter, keeps its
    configuration, appends to its globs one compiled glob per configured
    pattern, in order, and leaves an empty batch of capacity 1024. *)
Theorem Init_result f name f' :
  Init Compile helpRun f name = inl f' ->
  helpRun (Command f) = None
  /\ Name f' = name /\ Command f' = Command f /\ Options f' = Options f
  /\ Includes f' = Includes f /\ Excludes f' = Excludes f /\ Before f' = Before f
  /\ batch f' = [] /\ batchSize f' = 1024
  /\ exists incs excs,
       includes f' = includes f ++ incs /\ Forall2 (compilesTo Compile) (Includes f) incs
       /\ excludes f' = excludes f ++ excs /\ Forall2 (compilesTo Compile) (Excludes f) excs.
Proof.
  unfold Init. destruct (helpRun (Command f)); [discriminate|].
  destruct (compileAll Compile (Includes f) (includes f)) as [incs|[p e]] eqn:HI;
    [|discriminate].
  destruct (compileAll Compile (Excludes f) (excludes f)) as [excs|[p e]] eqn:HE;
    [|discriminate].
  intros H; inversion H; subst; simpl.
  apply compileAll_ok in HI as (incs' & -> & HFi).
  apply compileAll_ok in HE as (excs' & -> & HFe).
  repeat split; try done. by exists incs', excs'.
Qed.

(** X7. Init fails in two ways only: with ErrFormatterNotFound when the --help
    run of the command fails (whatever the patterns are), or, the command
    found, with an error that wraps the compile error of a configured
    pattern. *)
Theorem Init_error f name err :
  Init Compile helpRun f name = inr err ->
  (helpRun (Command f) <> None /\ err = ErrFormatterNotFound)
  \/ (helpRun (Command f) = None
      /\ exists msg pattern cause,
           err = Wrapf msg cause
           /\ In pattern (Includes f ++ Excludes f)
           /\ Compile ("**/" +:+ pattern) = inr cause).
Proof.
  unfold Init. destruct (helpRun (Command f)) as [e0|] eqn:Hh.
  - intros H; inversion H; subst. by left.
  - intros H. right. split; [done|]. revert H.
    destruct (compileAll Compile (Includes f) (includes f)) as [incs|[p e]] eqn:HI.
    + destruct (compileAll Compile (Excludes f) (excludes f)) as [excs|[p e]] eqn:HE;
        [discriminate|].
      intros H; inversion H; subst. apply compileAll_error in HE as [Hin Hc].
      eexists _, p, e. split; [done|]. split; [|done]. apply in_or_app. by right.
    + intros H; inversion H; subst. apply compileAll_error in HI as [Hin Hc].
      eexists _, p, e. split; [done|]. split; [|done]. apply in_or_app. by left.
Qed.
End InitFacts.
(** * Graph validation *)
Section ValidationFacts.
Import Format.
Variable Formatters : gmap string FormatterCfg.

(** X8. The check for broken dependencies passes exactly when every formatter of
    the range has an empty Before or one that names a configured formatter;
    otherwise the error names the first formatter of the range whose Before
    is not configured. *)
Theorem detectBroken_spec rng :
  (detectBroken Formatters rng = None <-> Forall (resolves Formatters) rng)
  /\ (forall pre name c post,
        rng = pre ++ (name, c) :: post ->
        Forall (resolves Formatters) pre ->
        ~ resolves Formatters (name, c) ->
        detectBroken Formatters rng
        = Some (Errorf ("formatter " +:+ name +:+ " is before " +:+ Before c
                        +:+ " but config for " +:+ Before c +:+ " was not found"))).
Proof.
  split.
  - induction rng as [|[name c] rest IH]; simpl; [by split|].
    rewrite Forall_cons. unfold resolves at 1. simpl.
    destruct (bool_decide_reflect (Before c = "")) as [He|He].
    + rewrite IH. split; [by split; [left|]|by intros [_ ?]].
    + destruct (Formatters !! Before c) as [child|] eqn:Hl.
      * rewrite IH. split; [by split; [right|]|by intros [_ ?]].
      * split; [discriminate|]. intros [[?|[? ?]] _]; [done|discriminate].
  - intros pre. revert rng. induction pre as [|[n0 c0] pre IH];
      intros rng name c post -> Hpre Hbad; simpl.
    + unfold resolves in Hbad. simpl in Hbad.
      destruct (bool_decide_reflect (Before c = "")) as [He|He]; [by destruct Hbad; left|].
      destruct (Formatters !! Before c) as [child|] eqn:Hl; [|done].
      destruct Hbad. right. by exists child.
    + apply Forall_cons in Hpre as [H0 Hpre]. unfold resolves in H0. simpl in H0.
      destruct (bool_decide_reflect (Before c0 = "")) as [He|He]; [by eapply IH|].
      destruct H0 as [?|[child Hl]]; [done|]. rewrite Hl. by eapply IH.
Qed.

Lemma follow_leadsBack name c names :
  leadsBack Formatters name c names ->
  forall fuel childName history,
    length names < fuel ->
    follow fuel Formatters name childName c history
    = Some (Some (Errorf ("formatter cycle detected "
                          +:+ Join (history ++ childName :: names) " -> "))).
Proof.
  induction 1 as [c Hb Hn|c child names Hne Hnn Hl Hlead IH];
    intros fuel childName history Hfuel;
    (destruct fuel as [|fuel]; [simpl in Hfuel; lia|]); simpl.
  - rewrite bool_decide_eq_false_2 by congruence.
    by rewrite bool_decide_eq_true_2 by done.
  - rewrite !bool_decide_eq_false_2 by done. rewrite Hl.
    rewrite IH by (simpl in Hfuel; lia). by rewrite <- app_assoc.
Qed.

Lemma follow_chainEnds name c hops :
  chainEnds Formatters name c hops ->
  forall fuel childName history,
    hops < fuel -> follow fuel Formatters name childName c history = Some None.
Proof.
  induction 1 as [c Hb|c child hops Hne Hnn Hl Hends IH];
    intros fuel childName history Hfuel; (destruct fuel as [|fuel]; [lia|]); simpl.
  - by rewrite bool_decide_eq_true_2 by done.
  - rewrite !bool_decide_eq_false_2 by done. rewrite Hl. apply IH. lia.
Qed.

Lemma follow_break fuel : forall name childName c history,
  follow fuel Formatters name childName c history = Some None ->
  exists hops, hops < fuel /\ chainEnds Formatters name c hops.
Proof.
  induction fuel as [|fuel IH]; intros name childName c history; simpl; [discriminate|].
  destruct (bool_decide_reflect (Before c = "")) as [He|He].
  - intros _. exists 0. split; [lia|by constructor].
  - destruct (bool_decide_reflect (Before c = name)) as [Hn|Hn]; [discriminate|].
    destruct (Formatters !! Before c) as [child|] eqn:Hl; [|discriminate].
    intros H. apply IH in H as (hops & Hlt & Hends).
    exists (S hops). split; [lia|]. by econstructor.
Qed.

(** X9. When the range reaches first a formatter whose chain of Before names
    comes back to it, the cycle detection returns the cycle error, and the
    message lists that formatter and every formatter of the chain, in the
    order they run. *)
Theorem detectCycles_reports_cycle fuel name c names rest :
  leadsBack Formatters name c names ->
  length names < fuel ->
  detectCycles fuel Formatters ((name, c) :: rest)
  = Some (Some (Errorf ("formatter cycle detected " +:+ Join (name :: names) " -> "))).
Proof.
  intros Hlead Hfuel. simpl.
  by rewrite (follow_leadsBack name c names Hlead fuel name [] Hfuel).
Qed.

(** X10. Within a bound on the iterations, the cycle detection accepts the
    configuration exactly when, for every formatter of the range, the chain
    of Before names ends at a formatter without Before in fewer steps than
    the bound and without passing the formatter it started from. *)
Theorem detectCycles_accepts_iff fuel rng :
  detectCycles fuel Formatters rng = Some None <->
  Forall (fun entry => exists hops,
            hops < fuel /\ chainEnds Formatters entry.1 entry.2 hops) rng.
Proof.
  induction rng as [|[name c] rest IH]; simpl; [by split|].
  rewrite Forall_cons. simpl. split.
  - destruct (follow fuel Formatters name name c []) as [[e|]|] eqn:HF; try discriminate.
    intros H. split; [by eapply follow_break|by apply IH].
  - intros [(hops & Hlt & Hends) Hrest].
    rewrite (follow_chainEnds name c hops Hends fuel name [] Hlt). by apply IH.
Qed.
End ValidationFacts.

(** * The formatter filter and the instantiation of formatters *)
Section FilterFacts.
Import Format.
Variable Formatters : gmap string FormatterCfg.

Lemma formatterSet_ok err names : forall set set',
  formatterSet Formatters err names set = inl set' <->
  Forall (fun name => is_Some (Formatters !! name)) names
  /\ set' = list_to_set names ∪ set.
Proof.
  induction names as [|name rest IH]; intros set set'; simpl.
  - rewrite (left_id_L ∅ (∪)). split.
    + intros H; by inversion H.
    + by intros [_ ->].
  - assert (({[name]} ∪ list_to_set rest) ∪ set = list_to_set rest ∪ ({[name]} ∪ set))
      as -> by (by rewrite (comm_L (∪) {[name]} (list_to_set rest)), <- (assoc_L (∪))).
    rewrite Forall_cons. destruct (Formatters !! name) as [c|] eqn:Hl.
    + rewrite IH. split.
      * by intros [HF ->].
      * by intros [[_ HF] ->].
    + split; [discriminate|]. intros [[[c Hc] _] _]. discriminate.
Qed.

(** X11. Building the filter set succeeds exactly when every requested formatter
    is configured. With the set built, a formatter is included when no
    formatter was requested, or when it is one of those requested. *)
Theorem formatter_filter err names :
  ((exists set, formatterSet Formatters err names ∅ = inl set) <->
     Forall (fun name => is_Some (Formatters !! name)) names)
  /\ (forall set name,
        formatterSet Formatters err names ∅ = inl set ->
        (includeFormatter set name = true <-> names = [] \/ name ∈ names)).
Proof.
  split.
  - split.
    + intros [set H]. by apply formatterSet_ok in H as [HF _].
    + intros HF. exists (list_to_set names ∪ ∅). by apply formatterSet_ok.
  - intros set name H. apply formatterSet_ok in H as [_ ->].
    rewrite (right_id_L ∅ (∪)). unfold includeFormatter. destruct names as [|n rest].
    + simpl. split; [by left|done].
    + destruct (size _ =? 0) eqn:Hs.
      * apply Nat.eqb_eq, size_empty_iff in Hs.
        assert (n ∈ (list_to_set (n :: rest) : gset string)) as Hin
          by (apply elem_of_list_to_set; by left).
        rewrite Hs in Hin. by apply elem_of_empty in Hin.
      * rewrite bool_decide_eq_true, elem_of_list_to_set. split; [by right|].
        by intros [?|?].
Qed.
End FilterFacts.

Section InitLoopFacts.
Import Format.
Variable T : Type.
Variable NewFormatter : string -> FormatterCfg -> T + error.
Variable isCommandNotFound : error -> bool.
Variable set : gset string.
Variable allowMissing : bool.

Abbreviation init := (initFormatters T NewFormatter isCommandNotFound set allowMissing).

Lemma initFormatters_inv rng : forall cfg0 fs0 cfg' fs',
  NoDup rng.*1 ->
  (forall name, name ∈ rng.*1 -> fs0 !! name = None) ->
  init rng cfg0 fs0 = inl (cfg', fs') ->
  (forall name f,
      fs' !! name = Some f <->
      (exists c, (name, c) ∈ rng /\ includeFormatter set name = true
                 /\ NewFormatter name c = inl f)
      \/ fs0 !! name = Some f)
  /\ (forall name c,
        (name, c) ∈ rng -> includeFormatter set name = true ->
        (exists f, NewFormatter name c = inl f)
        \/ (allowMissing = true
            /\ exists err, NewFormatter name c = inr err
                           /\ isCommandNotFound err = true))
  /\ (forall name,
        cfg' !! name
        = if bool_decide (name ∈ rng.*1) && negb (includeFormatter set name)
          then None else cfg0 !! name).
Proof.
  induction rng as [|[n0 c0] rest IH]; intros cfg0 fs0 cfg' fs' Hnd Hfresh; simpl.
  - intros H; inversion H; subst. split; [|split].
    + intros name f. split; [by right|]. intros [(c & Hin & _)|?]; [|done].
      by apply elem_of_nil in Hin.
    + intros name c Hin. by apply elem_of_nil in Hin.
    + done.
  - apply NoDup_cons in Hnd as [Hn0 Hnd].
    assert (forall name, name ∈ rest.*1 -> fs0 !! name = None) as Hfresh'
      by (intros name Hin; apply Hfresh; by right).
    destruct (includeFormatter set n0) eqn:Hinc; simpl.
    + destruct (NewFormatter n0 c0) as [f0|e0] eqn:HN.
      * intros H. apply IH in H as (Hfs & Herr & Hcfg); [|done|].
        2:{ intros name Hin. rewrite lookup_insert_ne; [by apply Hfresh'|].
            intros ->. done. }
        split; [|split].
        -- intros name f. rewrite Hfs. split.
           ++ intros [(c & Hin & Hi & Hc)|Hl].
              ** left. exists c. split; [by right|done].
              ** destruct (decide (n0 = name)) as [->|Hne].
                 --- rewrite lookup_insert_eq in Hl. inversion Hl; subst.
                     left. exists c0. split; [by left|done].
                 --- rewrite lookup_insert_ne in Hl by done. by right.
           ++ intros [(c & Hin & Hi & Hc)|Hl].
              ** apply elem_of_cons in Hin as [Heq|Hin].
                 --- inversion Heq; subst. right. rewrite lookup_insert_eq. congruence.
                 --- left. by exists c.
              ** right. rewrite lookup_insert_ne; [done|]. intros ->.
                 rewrite Hfresh in Hl; [done|by left].
        -- intros name c Hin Hi. apply elem_of_cons in Hin as [Heq|Hin].
           ++ inversion Heq; subst. left. by exists f0.
           ++ by apply Herr.
        -- intros name. rewrite Hcfg. simpl.
           destruct (decide (name = n0)) as [->|Hne].
           ++ rewrite Hinc. simpl. rewrite !andb_false_r. done.
           ++ destruct (includeFormatter set name); simpl; rewrite ?andb_false_r; [done|].
              rewrite !andb_true_r.
              destruct (bool_decide_reflect (name ∈ rest.*1)) as [Hin|Hin].
              ** by rewrite bool_decide_eq_true_2 by (by right).
              ** rewrite bool_decide_eq_false_2; [done|].
                 intros Hc. apply elem_of_cons in Hc as [?|?]; done.
      * destruct (isCommandNotFound e0 && allowMissing) eqn:Hskip; [|discriminate].
        apply andb_true_iff in Hskip as [Hnf Hallow].
        intros H. apply IH in H as (Hfs & Herr & Hcfg); [|done|done].
        split; [|split].
        -- intros name f. rewrite Hfs. split.
           ++ intros [(c & Hin & Hi & Hc)|Hl]; [|by right].
              left. exists c. split; [by right|done].
           ++ intros [(c & Hin & Hi & Hc)|Hl]; [|by right].
              apply elem_of_cons in Hin as [Heq|Hin]; [inversion Heq; subst; congruence|].
              left. by exists c.
        -- intros name c Hin Hi. apply elem_of_cons in Hin as [Heq|Hin].
           ++ inversion Heq; subst. right. split; [done|]. by exists e0.
           ++ by apply Herr.
        -- intros name. rewrite Hcfg. simpl.
           destruct (decide (name = n0)) as [->|Hne].
           ++ rewrite Hinc. simpl. rewrite !andb_false_r. done.
           ++ destruct (includeFormatter set name); simpl; rewrite ?andb_false_r; [done|].
              rewrite !andb_true_r.
              destruct (bool_decide_reflect (name ∈ rest.*1)) as [Hin|Hin].
              ** by rewrite bool_decide_eq_true_2 by (by right).
              ** rewrite bool_decide_eq_false_2; [done|].
                 intros Hc. apply elem_of_cons in Hc as [?|?]; done.
    + intros H. apply IH in H as (Hfs & Herr & Hcfg); [|done|done].
      split; [|split].
      * intros name f. rewrite Hfs. split.
        -- intros [(c & Hin & Hi & Hc)|Hl]; [|by right].
           left. exists c. split; [by right|done].
        -- intros [(c & Hin & Hi & Hc)|Hl]; [|by right].
           apply elem_of_cons in Hin as [Heq|Hin]; [inversion Heq; subst; congruence|].
           left. by exists c.
      * intros name c Hin Hi. apply elem_of_cons in Hin as [Heq|Hin].
        -- inversion Heq; subst. congruence.
        -- by apply Herr.
      * intros name. rewrite Hcfg. simpl.
        destruct (decide (name = n0)) as [->|Hne].
        -- rewrite Hinc, lookup_delete_eq.
           rewrite (bool_decide_eq_true_2 (n0 ∈ n0 :: _)) by (by left).
           by destruct (bool_decide (n0 ∈ rest.*1)).
        -- rewrite lookup_delete_ne by done.
           destruct (includeFormatter set name); simpl; rewrite ?andb_false_r; [done|].
           rewrite !andb_true_r.
           destruct (bool_decide_reflect (name ∈ rest.*1)) as [Hin|Hin].
           ++ by rewrite bool_decide_eq_true_2 by (by right).
           ++ rewrite bool_decide_eq_false_2; [done|].
              intros Hc. apply elem_of_cons in Hc as [?|?]; done.
Qed.

(** X12. When the instantiation loop succeeds from an empty map, the formatters
    it returns are exactly the included formatters of the range whose
    constructor succeeded, each under its name; an included formatter whose
    constructor failed was passed over only because missing formatters are
    allowed and its command was not found; and the configuration has lost
    exactly the formatters that are not included. *)
Theorem initFormatters_result rng cfg0 cfg' fs' :
  NoDup rng.*1 ->
  init rng cfg0 ∅ = inl (cfg', fs') ->
  (forall name f,
      fs' !! name = Some f <->
      exists c, (name, c) ∈ rng /\ includeFormatter set name = true
                /\ NewFormatter name c = inl f)
  /\ (forall name c,
        (name, c) ∈ rng -> includeFormatter set name = true ->
        (exists f, NewFormatter name c = inl f)
        \/ (allowMissing = true
            /\ exists err, NewFormatter name c = inr err
                           /\ isCommandNotFound err = true))
  /\ (forall name,
        cfg' !! name
        = if bool_decide (name ∈ rng.*1) && negb (includeFormatter set name)
          then None else cfg0 !! name).
Proof.
  intros Hnd H.
  apply initFormatters_inv in H as (Hfs & Herr & Hcfg); [|done|intros; apply lookup_empty].
  split; [|by split]. intros name f. rewrite Hfs. split; [|by left].
  intros [?|Hl]; [done|]. by rewrite lookup_empty in Hl.
Qed.
End InitLoopFacts.
(** * Dispatch, the no-cache walk and the completion drain *)
Section DispatchFacts.
Import Format.

Lemma inboxOf_app name a b : inboxOf name (a ++ b) = inboxOf name a ++ inboxOf name b.
Proof. unfold inboxOf. by rewrite List.filter_app, map_app. Qed.

Lemma inboxOf_other name path formatters :
  ~ In name (map Formatter.Name formatters) ->
  inboxOf name
    (flat_map (fun f => if Formatter.Wants f path then [(Formatter.Name f, path)] else [])
              formatters) = [].
Proof.
  induction formatters as [|g rest IH]; intros Hn; [done|]. simpl in *.
  rewrite inboxOf_app, IH by tauto.
  destruct (Formatter.Wants g path); [|done]. unfold inboxOf. simpl.
  rewrite bool_decide_eq_false_2; [done|]. simpl. intros Heq. apply Hn. by left.
Qed.

Lemma inboxOf_one f path formatters :
  List.NoDup (map Formatter.Name formatters) ->
  In f formatters ->
  inboxOf (Formatter.Name f)
    (flat_map (fun g => if Formatter.Wants g path then [(Formatter.Name g, path)] else [])
              formatters)
  = if Formatter.Wants f path then [path] else [].
Proof.
  induction formatters as [|g rest IH]; intros Hnd Hin; [done|]. simpl in *.
  apply List.NoDup_cons_iff in Hnd as [Hg Hnd]. rewrite inboxOf_app.
  destruct Hin as [->|Hin].
  - rewrite inboxOf_other by done. rewrite app_nil_r.
    destruct (Formatter.Wants f path); [|done]. unfold inboxOf. simpl.
    by rewrite bool_decide_eq_true_2.
  - rewrite IH by done.
    assert (Formatter.Name g <> Formatter.Name f) as Hne.
    { intros Heq. apply Hg. rewrite Heq. by apply in_map. }
    destruct (Formatter.Wants g path); [|done]. unfold inboxOf at 1. simpl.
    by rewrite bool_decide_eq_false_2.
Qed.


(** X14. The no-cache walk considers the entries before the poll that sees the
    cancellation (all of them without cancellation), delivers of those the
    ones that are neither directory nor symbolic link, in order, and returns
    the cancellation error exactly when it has left entries unconsidered. *)
Theorem Walk_result ctx entries : forall poll pathsCh,
  Walk ctx poll entries pathsCh
  = (pathsCh ++ map fst (List.filter neitherDirNorSymlink
                           (take (considered ctx poll entries) entries)),
     if considered ctx poll entries <? length entries then Some Canceled else None).
Proof.
  induction entries as [|[path info] rest IH]; intros poll pathsCh.
  - simpl. rewrite take_nil, app_nil_r. by destruct (considered ctx poll []).
  - simpl. destruct (ctxDone ctx poll) eqn:Hd.
    + unfold walkFn. rewrite Hd. destruct ctx as [k|]; [|discriminate].
      simpl in Hd. apply Nat.leb_le in Hd. unfold considered.
      replace (k - poll) with 0 by lia. simpl. by rewrite app_nil_r.
    + rewrite walkFn_keeps by done. rewrite IH.
      assert (considered ctx poll ((path, info) :: rest)
              = S (considered ctx (S poll) rest)) as ->.
      { destruct ctx as [k|]; [|done]. simpl in *. apply Nat.leb_gt in Hd.
        replace (k - poll) with (S (k - S poll)) by lia. done. }
      simpl. destruct (neitherDirNorSymlink (path, info)); simpl;
        by rewrite <- ?app_assoc.
Qed.
End DispatchFacts.

Section DrainMore.
Import Format.
Variable Store : Type.
Variable Update : Store -> list string -> Store * nat * option error.

Lemma drainLoop_app_blocked cli pre : forall evs d d1,
  drainLoop Store Update cli pre d = (d1, Blocked) ->
  drainLoop Store Update cli (pre ++ evs) d = drainLoop Store Update cli evs d1.
Proof.
  induction pre as [|ev pre IH]; intros evs d d1 H; simpl in *.
  - by inversion H.
  - destruct ev; try discriminate.
    destruct (_ =? _); [|by apply IH].
    destruct (processBatch _ _ _ _) as [d2 [e|]]; [discriminate|by apply IH].
Qed.

(** X15. When the select of the drain yields the cancellation, the drain returns
    the cancellation error at once: the completions received since the last
    flush stay in the batch and are not written to the cache, and the changed
    count is not reported. *)
Theorem drain_cancel_drops_batch cli pre rest d d1 :
  drainLoop Store Update cli pre d = (d1, Blocked) ->
  drain Store Update cli (pre ++ CtxDone :: rest) d = Some (d1, Some Canceled).
Proof.
  intros H. unfold drain. by rewrite (drainLoop_app_blocked cli pre _ d d1 H).
Qed.

(** X16. With the cache in use, when cache.Update fails on every call, the drain
    returns that error whatever paths complete and whatever the fail-on-change
    policy is, and the changed count stays as it was. *)
Theorem drain_update_error cli err paths rest d :
  NoCache cli = false ->
  (forall st batch, (Update st batch).2 = Some err) ->
  exists d',
    drain Store Update cli (map Recv paths ++ Closed :: rest) d = Some (d', Some err)
    /\ changes Store d' = changes Store d.
Proof.
  intros HN Hfail. unfold drain. revert d.
  induction paths as [|p paths IH]; intros d; simpl.
  - unfold processBatch. rewrite HN. specialize (Hfail (store _ d) (batch _ d)).
    destruct (Update _ _) as [[st count] e]. simpl in Hfail. subst e.
    by eexists.
  - destruct (_ =? _).
    + unfold processBatch at 1. rewrite HN. simpl.
      specialize (Hfail (store _ d) (batch _ d ++ [p])).
      destruct (Update _ _) as [[st count] e]. simpl in Hfail. subst e.
      by eexists.
    + destruct (IH (mkDrain _ (store _ d) (batch _ d ++ [p]) (changes _ d)))
        as (d' & H & Hc).
      exists d'. by split.
Qed.
End DrainMore.

Section DrainRecording.
Import Format.

Lemma drainLoop_recording cli paths rest : forall d,
  NoCache cli = false ->
  length (batch _ d) < batchSize ->
  exists d1 new,
    drainLoop _ recordingUpdate cli (map Recv paths ++ Closed :: rest) d = (d1, Broke)
    /\ store _ d1 = store _ d ++ new
    /\ concat new ++ batch _ d1 = batch _ d ++ paths
    /\ Forall (fun b => length b = batchSize) new
    /\ length (batch _ d1) < batchSize
    /\ changes _ d1 = changes _ d + length (concat new).
Proof.
  induction paths as [|p paths IH]; intros d HN Hlen; simpl.
  - exists d, []. simpl. rewrite !app_nil_r. repeat split; try done; lia.
  - rewrite length_app. simpl. destruct (_ =? _) eqn:Hfull.
    + apply Nat.eqb_eq in Hfull. unfold processBatch, recordingUpdate. rewrite HN. simpl.
      edestruct IH as (d1 & new & -> & Hs & Hc & Hall & Hb & Hch);
        [done|simpl; unfold batchSize; lia|].
      simpl in *. exists d1, ((batch _ d ++ [p]) :: new). split; [done|].
      split; [by rewrite Hs, <- app_assoc|].
      split; [simpl; by rewrite <- Hc, <- !app_assoc|].
      split; [constructor; [by rewrite length_app|done]|]. split; [done|].
      rewrite Hch. simpl. rewrite !length_app. simpl. lia.
    + apply Nat.eqb_neq in Hfull.
      edestruct IH as (d1 & new & -> & Hs & Hc & Hall & Hb & Hch);
        [done|simpl; rewrite length_app; simpl; lia|].
      simpl in *. exists d1, new. split; [done|]. split; [done|].
      split; [by rewrite Hc, <- app_assoc|]. by repeat split.
Qed.

(** X17. With the cache in use and an update that does not fail, the drain passes
    every completed path to cache.Update exactly once and in order: in
    batches of exactly 1024 paths while paths arrive, then the rest (possibly
    no path at all) in the final flush; the changed count grows by the sum
    of the counts Update returned. *)
Theorem drain_batches_updates cli paths rest d :
  NoCache cli = false ->
  length (batch _ d) < batchSize ->
  exists d' res full last,
    drain _ recordingUpdate cli (map Recv paths ++ Closed :: rest) d = Some (d', res)
    /\ store _ d' = store _ d ++ full ++ [last]
    /\ concat full ++ last = batch _ d ++ paths
    /\ Forall (fun b => length b = 1024) full
    /\ length last < 1024
    /\ batch _ d' = []
    /\ changes _ d' = changes _ d + length (batch _ d ++ paths).
Proof.
  intros HN Hlen.
  destruct (drainLoop_recording cli paths rest d HN Hlen)
    as (d1 & new & HL & Hs & Hc & Hall & Hb & Hch).
  unfold drain. rewrite HL. unfold processBatch, recordingUpdate. rewrite HN.
  destruct (FailOnChange cli && _); eexists _, _, new, (batch _ d1);
    (split; [done|]); simpl; rewrite Hs, <- app_assoc;
    (split; [done|]); (split; [done|]); (split; [done|]); (split; [done|]);
    (split; [done|]); rewrite Hch, <- Hc, length_app; lia.
Qed.
End DrainRecording.
(** * More on the git reader *)
Section ReadMore.
Import GitReader.
Variable filepathJoin : list string -> string.
Variable Stat : string -> FileInfo + error.
Variable lsFiles : string -> list string.

Abbreviation readLoop := (GitReader.readLoop filepathJoin Stat).
Abbreviation Read := (GitReader.Read filepathJoin Stat lsFiles).
Abbreviation listing := (GitReader.listing filepathJoin lsFiles).
Abbreviation existing := (GitReader.existing filepathJoin Stat).
Abbreviation statsCleanly := (GitReader.statsCleanly filepathJoin Stat).

Lemma readLoop_poll g lines : forall poll poll' files n,
  readLoop g None poll lines files n = readLoop g None poll' lines files n.
Proof.
  induction lines as [|text lines IH]; intros poll poll' files n; [done|].
  simpl. destruct (n <? length files); [|done].
  destruct (Stat _); [apply IH|]. destruct (IsNotExist _); [apply IH|done].
Qed.

Lemma existing_cons g text lines :
  existing g (text :: lines)
  = match Stat (filepathJoin [root g; path g; text]) with
    | inl info =>
        mkFile (filepathJoin [root g; path g; text]) (filepathJoin [path g; text]) info
        :: existing g lines
    | inr _ => existing g lines
    end.
Proof. unfold GitReader.existing. simpl. by destruct (Stat _). Qed.

Lemma readLoop_fills g lines : forall poll files n rest files' n' err,
  n <= length files ->
  statsCleanly g lines ->
  readLoop g None poll lines files n = (rest, files', n', err) ->
  n' = Nat.min (length files) (n + length (existing g lines))
  /\ files' = take n files ++ map Some (take (n' - n) (existing g lines)) ++ drop n' files
  /\ err = if n + length (existing g lines) <? length files then Some EOF else None.
Proof.
  induction lines as [|text lines IH]; intros poll files n rest files' n' err Hn Hclean H.
  - simpl in H. destruct (n <? length files) eqn:Hlt.
    + apply Nat.ltb_lt in Hlt. inversion H; subst. simpl.
      rewrite Nat.add_0_r, Nat.sub_diag. simpl. rewrite take_drop.
      replace (n' <? length files') with true by (symmetry; apply Nat.ltb_lt; lia).
      split; [lia|done].
    + apply Nat.ltb_ge in Hlt. inversion H; subst. simpl.
      rewrite Nat.add_0_r, Nat.sub_diag. simpl. rewrite take_drop.
      replace (n' <? length files') with false by (symmetry; apply Nat.ltb_ge; lia).
      split; [lia|done].
  - destruct (n <? length files) eqn:Hlt.
    + simpl in H. rewrite Hlt in H. apply Nat.ltb_lt in Hlt. simpl in H.
      rewrite existing_cons.
      destruct (Stat (filepathJoin [root g; path g; text])) as [info|e] eqn:HS.
      * apply IH in H; [|rewrite length_insert; lia|intros t e0 Ht; apply Hclean; by right].
        rewrite length_insert in H.
        destruct H as (Hn' & Hf & He). simpl length.
        replace (n + S (length (existing g lines)))
          with (S n + length (existing g lines)) by lia.
        split; [done|]. split; [|done].
        assert (S n <= n') as Hle by lia.
        rewrite Hf. replace (n' - n) with (S (n' - S n)) by lia. simpl.
        rewrite (take_S_r _ _ (Some (mkFile (filepathJoin [root g; path g; text])
                                            (filepathJoin [path g; text]) info)))
          by (by apply list_lookup_insert_eq).
        rewrite take_insert_ge by done. rewrite drop_insert_lt by lia.
        by rewrite <- app_assoc.
      * rewrite (Hclean text e (or_introl eq_refl) HS) in H.
        apply IH in H; [|done|intros t e0 Ht; apply Hclean; by right]. done.
    + rewrite readLoop_full in H by done. apply Nat.ltb_ge in Hlt.
      inversion H; subst.
      replace (n' + _ <? length files') with false by (symmetry; apply Nat.ltb_ge; lia).
      rewrite Nat.sub_diag. simpl. rewrite take_drop. split; [lia|done].
Qed.

(** X18. Without cancellation and without stat failures other than non-existence,
    Read fills the slice from its start with the files of the listed paths
    that exist, in listing order, as many as fit; n is their number; and err
    is io.EOF exactly when the listing ran out before the slice was full. *)
Theorem Read_fills_in_order g files g' files' n err :
  statsCleanly g (listing g) ->
  Read g None files = (g', files', n, err) ->
  n = Nat.min (length files) (length (existing g (listing g)))
  /\ files' = map Some (take n (existing g (listing g))) ++ drop n files
  /\ err = if length (existing g (listing g)) <? length files then Some EOF else None.
Proof.
  intros Hclean. unfold GitReader.Read. fold (listing g).
  destruct (readLoop g None 0 (listing g) files 0) as [[[rest fs] m] e] eqn:HL.
  intros H. inversion H; subst. clear H.
  apply readLoop_fills in HL as (Hn & Hf & He); [|lia|done].
  rewrite Nat.sub_0_r in Hf. by simpl in *.
Qed.

Lemma readLoop_shift g lines pre : forall poll files n,
  readLoop g None poll lines (pre ++ files) (length pre + n)
  = let '(rest, files', n', err) := readLoop g None poll lines files n in
    (rest, pre ++ files', length pre + n', err).
Proof.
  induction lines as [|text lines IH]; intros poll files n.
  - simpl. rewrite length_app.
    replace (length pre + n <? length pre + length files) with (n <? length files)
      by (destruct (Nat.ltb_spec n (length files));
          [symmetry; apply Nat.ltb_lt|symmetry; apply Nat.ltb_ge]; lia).
    by destruct (n <? length files).
  - simpl. rewrite length_app.
    replace (length pre + n <? length pre + length files) with (n <? length files)
      by (destruct (Nat.ltb_spec n (length files));
          [symmetry; apply Nat.ltb_lt|symmetry; apply Nat.ltb_ge]; lia).
    destruct (n <? length files); [|done].
    destruct (Stat _) as [info|e].
    + rewrite insert_app_r. replace (S (length pre + n)) with (length pre + S n) by lia.
      apply IH.
    + destruct (IsNotExist _); [apply IH|done].
Qed.

Lemma readLoop_prefix g lines fs2 : forall poll fs1 n rest fs1' n1,
  n <= length fs1 ->
  readLoop g None poll lines fs1 n = (rest, fs1', n1, None) ->
  n1 = length fs1 /\ length fs1' = length fs1
  /\ readLoop g None poll lines (fs1 ++ fs2) n
     = readLoop g None poll rest (fs1' ++ fs2) (length fs1).
Proof.
  induction lines as [|text lines IH]; intros poll fs1 n rest fs1' n1 Hn H.
  - simpl in H. destruct (n <? length fs1) eqn:Hlt; [discriminate|].
    apply Nat.ltb_ge in Hlt. inversion H; subst. repeat split; try lia.
    by replace n1 with (length fs1') by lia.
  - destruct (n <? length fs1) eqn:Hlt.
    + simpl in H. rewrite Hlt in H. apply Nat.ltb_lt in Hlt. simpl in H.
      simpl readLoop at 1. rewrite length_app.
      replace (n <? length fs1 + length fs2) with true
        by (symmetry; apply Nat.ltb_lt; lia).
      simpl ctxDone. cbv iota.
      destruct (Stat _) as [info|e].
      * apply IH in H; [|rewrite length_insert; lia].
        rewrite length_insert in H. destruct H as (H1 & H2 & H3).
        split; [done|]. split; [done|].
        rewrite insert_app_l by done. rewrite H3. apply readLoop_poll.
      * destruct (IsNotExist _); [|discriminate].
        apply IH in H; [|done]. destruct H as (H1 & H2 & H3).
        split; [done|]. split; [done|].
        rewrite H3. apply readLoop_poll.
    + rewrite readLoop_full in H by done. apply Nat.ltb_ge in Hlt.
      inversion H; subst. repeat split; try lia.
      by replace n1 with (length fs1') by lia.
Qed.

(** X19. Without cancellation, reads compose: when a Read has filled its slice
    (it returned no error), a second Read on the reader it leaves gives,
    together with the first, what a single Read into the two slices joined
    gives: the same files, counts, error, statistic and lines left. *)
Theorem Read_twice g fs1 fs2 g1 fs1' n1 g2 fs2' n2 err2 :
  Read g None fs1 = (g1, fs1', n1, None) ->
  Read g1 None fs2 = (g2, fs2', n2, err2) ->
  Read g None (fs1 ++ fs2) = (g2, fs1' ++ fs2', n1 + n2, err2).
Proof.
  unfold GitReader.Read. fold (listing g).
  destruct (readLoop g None 0 (listing g) fs1 0) as [[[rest1 f1] m1] e1] eqn:HL1.
  intros H; inversion H; subst. clear H. simpl.
  apply readLoop_prefix with (fs2 := fs2) in HL1 as (Hn1 & Hlen & ->); [|lia].
  pose proof (readLoop_shift g rest1 fs1' 0 fs2 0) as Hshift.
  rewrite Nat.add_0_r, Hlen in Hshift. rewrite Hshift.
  rewrite (readLoop_same_dir filepathJoin Stat
             (mkGitReader (root g) (path g) (Traversed g + n1) (Some rest1)) g) by done.
  destruct (readLoop g None 0 rest1 fs2 0) as [[[rest2 f2] m2] e2].
  intros H; inversion H; subst. by rewrite Nat.add_assoc.
Qed.

(** X20. Read into an empty slice returns at once with n = 0 and no error, reads
    no line and leaves the statistic as it is, also under a cancelled
    context. *)
Theorem Read_empty_slice g ctx :
  Read g ctx []
  = (mkGitReader (root g) (path g) (Traversed g) (Some (listing g)), [], 0, None).
Proof.
  unfold GitReader.Read. fold (listing g).
  rewrite readLoop_full by done. by rewrite Nat.add_0_r.
Qed.

(** X21. When the first poll of Read sees the cancellation and the slice is not
    empty, Read returns n = 0 and the cancellation error: it reads no line,
    fills no slot and leaves the statistic as it is. *)
Theorem Read_cancelled g files :
  0 < length files ->
  Read g (Some 0) files
  = (mkGitReader (root g) (path g) (Traversed g) (Some (listing g)), files, 0,
     Some Canceled).
Proof.
  intros Hlen. unfold GitReader.Read. fold (listing g).
  assert (readLoop g (Some 0) 0 (listing g) files 0
          = (listing g, files, 0, Some Canceled)) as ->.
  { destruct (listing g); simpl;
      by replace (0 <? length files) with true by (symmetry; by apply Nat.ltb_lt). }
  by rewrite Nat.add_0_r.
Qed.

Lemma readLoop_stat_failure g skipped : forall poll bad rest files n err,
  n < length files ->
  Forall (fun text => GitReader.removed filepathJoin Stat g text = true) skipped ->
  Stat (filepathJoin [root g; path g; bad]) = inr err ->
  IsNotExist (Some err) = false ->
  readLoop g None poll (skipped ++ bad :: rest) files n
  = (rest, files, n,
     Some (Wrapf ("failed to stat " +:+ filepathJoin [root g; path g; bad]) err)).
Proof.
  induction skipped as [|text skipped IH]; intros poll bad rest files n err Hn Hsk HS HE;
    simpl; replace (n <? length files) with true by (symmetry; by apply Nat.ltb_lt).
  - by rewrite HS, HE.
  - apply Forall_cons in Hsk as [Hrm Hsk]. unfold GitReader.removed in Hrm.
    destruct (Stat (filepathJoin [root g; path g; text])) as [info|e]; [discriminate|].
    rewrite Hrm. by apply IH.
Qed.

(** X22. When, after removed paths only, the listing reaches a path whose stat
    fails for another reason, Read stops there: n = 0, no slot filled, the
    error wraps the stat error under "failed to stat <path>", and the lines
    left begin after the failing path, so that a later Read does not come
    back to it. *)
Theorem Read_stat_failure g skipped bad rest files err :
  scanner g = Some (skipped ++ bad :: rest) ->
  0 < length files ->
  Forall (fun text => GitReader.removed filepathJoin Stat g text = true) skipped ->
  Stat (filepathJoin [root g; path g; bad]) = inr err ->
  IsNotExist (Some err) = false ->
  Read g None files
  = (mkGitReader (root g) (path g) (Traversed g) (Some rest), files, 0,
     Some (Wrapf ("failed to stat " +:+ filepathJoin [root g; path g; bad]) err)).
Proof.
  intros Hsc Hlen Hsk HS HE. unfold GitReader.Read. rewrite Hsc.
  rewrite (readLoop_stat_failure g skipped 0 bad rest files 0 err) by done.
  by rewrite Nat.add_0_r.
Qed.
End ReadMore.

(** * Instances *)

Lemma Run_short_input_witness :
  length (Formatter.batch gofmt ++ ["a.go"; "b.go"]) < Formatter.batchSize gofmt
  /\ Formatter.Run succeeds (map Recv ["a.go"; "b.go"] ++ Closed :: []) gofmt
                   Formatter.emptyWorld
     = Some (Formatter.apply succeeds
               (Formatter.set_batch gofmt (Formatter.batch gofmt ++ ["a.go"; "b.go"]))
               Formatter.emptyWorld).
Proof.
  assert (length (Formatter.batch gofmt ++ ["a.go"; "b.go"]) < Formatter.batchSize gofmt)
    as Hlen by (vm_compute; lia).
  split; [exact Hlen|].
  exact (Run_short_input succeeds ["a.go"; "b.go"] [] gofmt Formatter.emptyWorld Hlen).
Defined.

Lemma Run_within_batch_witness :
  exists new,
    [("gofmt", ["-w"; "a.go"; "b.go"])] = Formatter.invocations Formatter.emptyWorld ++ new
    /\ Forall (withinBatch gofmt) new.
Proof.
  apply (Run_within_batch succeeds [Recv "a.go"; Recv "b.go"; Closed] gofmt
           Formatter.emptyWorld (Formatter.set_batch gofmt [])
           (Formatter.mkWorld [("gofmt", ["-w"; "a.go"; "b.go"])] ["a.go"; "b.go"] [])
           None).
  - vm_compute. lia.
  - reflexivity.
Defined.

Lemma Run_hands_on_every_path_witness :
  exists f' w',
    Formatter.Run succeeds (map Recv ["a.go"; "b.go"] ++ Closed :: []) gofmt
                  Formatter.emptyWorld = Some (f', w', None)
    /\ Formatter.batch f' = []
    /\ Formatter.completed w'
       = Formatter.completed (handedOn gofmt Formatter.emptyWorld
                                       (Formatter.batch gofmt ++ ["a.go"; "b.go"]))
    /\ Formatter.forwarded w'
       = Formatter.forwarded (handedOn gofmt Formatter.emptyWorld
                                       (Formatter.batch gofmt ++ ["a.go"; "b.go"])).
Proof.
  apply (Run_hands_on_every_path succeeds). intros k command args. reflexivity.
Defined.

Lemma Run_waits_for_close_witness :
  Formatter.Run succeeds (map Recv ["a.go"; "b.go"]) gofmt Formatter.emptyWorld = None.
Proof.
  apply (Run_waits_for_close succeeds). intros k command args. reflexivity.
Defined.

Lemma Init_result_witness :
  Formatter.Init suffixGlob helpOk (configured "gofmt" ["-w"] ["*.go"] [] []) "gofmt"
  = inl gofmt
  /\ Formatter.Name gofmt = "gofmt"
  /\ Formatter.batchSize gofmt = 1024.
Proof.
  assert (Formatter.Init suffixGlob helpOk (configured "gofmt" ["-w"] ["*.go"] [] [])
                         "gofmt" = inl gofmt) as H by reflexivity.
  split; [exact H|].
  pose proof (Init_result suffixGlob helpOk _ _ _ H) as (_ & Hn & _ & _ & _ & _ & _ & _ & Hs & _).
  split; [exact Hn|exact Hs].
Defined.

Lemma Init_error_witness :
  Formatter.Init suffixGlob helpMissing (configured "gofmt" ["-w"] ["*.go"] [] []) "gofmt"
  = inr ErrFormatterNotFound
  /\ ((helpMissing "gofmt" <> None /\ ErrFormatterNotFound = ErrFormatterNotFound)
      \/ (helpMissing "gofmt" = None
          /\ exists msg pattern cause,
               ErrFormatterNotFound = Wrapf msg cause
               /\ In pattern (["*.go"] ++ [])
               /\ suffixGlob ("**/" +:+ pattern) = inr cause)).
Proof.
  split; [reflexivity|].
  apply (Init_error suffixGlob helpMissing (configured "gofmt" ["-w"] ["*.go"] [] [])
           "gofmt" ErrFormatterNotFound).
  reflexivity.
Defined.

Lemma detectCycles_reports_cycle_witness :
  Format.detectCycles 2 tailIntoCycle
    [("isort", before "ruff"); ("black", before "isort")]
  = Some (Some (Errorf ("formatter cycle detected " +:+ Join ["isort"; "ruff"] " -> "))).
Proof.
  apply (detectCycles_reports_cycle tailIntoCycle 2 "isort" (before "ruff") ["ruff"]).
  - apply (leadsBack_step tailIntoCycle "isort" (before "ruff") (before "isort") []).
    + discriminate.
    + discriminate.
    + reflexivity.
    + apply leadsBack_here; [reflexivity|discriminate].
  - simpl. lia.
Defined.

Lemma initFormatters_result_witness :
  exists cfg' fs',
    Format.initFormatters _ newFormatter commandNotFound ∅ true
      [("gofmt", Format.mkCfg "gofmt" ["-w"] ["*.go"] [] "");
       ("rufo", Format.mkCfg "rufo" [] ["*.rb"] [] "")] twoFormatters ∅
    = inl (cfg', fs')
    /\ fs' !! "rufo" = None
    /\ (forall name,
          cfg' !! name
          = if bool_decide (name ∈ ["gofmt"; "rufo"])
               && negb (Format.includeFormatter ∅ name)
            then None else twoFormatters !! name).
Proof.
  eexists _, _. split; [reflexivity|].
  edestruct (initFormatters_result _ newFormatter commandNotFound ∅ true
               [("gofmt", Format.mkCfg "gofmt" ["-w"] ["*.go"] [] "");
                ("rufo", Format.mkCfg "rufo" [] ["*.rb"] [] "")] twoFormatters)
    as (_ & _ & Hcfg).
  - apply NoDup_cons. split; [|apply NoDup_singleton].
    intros Hin. apply list_elem_of_singleton in Hin. discriminate.
  - reflexivity.
  - split; [reflexivity|exact Hcfg].
Defined.


Lemma drain_cancel_drops_batch_witness :
  Format.drain _ recordingUpdate (Format.mkCli false true)
               ([Recv "a.go"] ++ CtxDone :: [Closed]) (Format.mkDrain (list (list string)) [] [] 0)
  = Some (Format.mkDrain (list (list string)) [] ["a.go"] 0, Some Canceled).
Proof.
  apply (drain_cancel_drops_batch _ recordingUpdate (Format.mkCli false true)
           [Recv "a.go"]).
  reflexivity.
Defined.

Lemma drain_update_error_witness :
  exists d',
    Format.drain _ failingUpdate (Format.mkCli false true)
                 (map Recv ["a.go"; "b.go"] ++ Closed :: [])
                 (Format.mkDrain (list (list string)) [] [] 0)
    = Some (d', Some (CacheError "disk full"))
    /\ Format.changes _ d' = Format.changes _ (Format.mkDrain (list (list string)) [] [] 0).
Proof.
  apply (drain_update_error _ failingUpdate (Format.mkCli false true)
           (CacheError "disk full")).
  - reflexivity.
  - intros st batch. reflexivity.
Defined.

Lemma drain_batches_updates_witness :
  exists d' res full last,
    Format.drain _ recordingUpdate (Format.mkCli false false)
                 (map Recv ["a.go"; "b.go"] ++ Closed :: [])
                 (Format.mkDrain (list (list string)) [] [] 0) = Some (d', res)
    /\ Format.store _ d' = [] ++ full ++ [last]
    /\ concat full ++ last = [] ++ ["a.go"; "b.go"]
    /\ Forall (fun b => length b = 1024) full
    /\ length last < 1024
    /\ Format.batch _ d' = []
    /\ Format.changes _ d' = 0 + length ([] ++ ["a.go"; "b.go"]).
Proof.
  apply (drain_batches_updates (Format.mkCli false false) ["a.go"; "b.go"] []
           (Format.mkDrain (list (list string)) [] [] 0)).
  - reflexivity.
  - unfold Format.batchSize. simpl. lia.
Defined.

Lemma statTree_errors path err : statTree path = inr err -> err = ErrNotExist.
Proof.
  unfold statTree. destruct (bool_decide _); intros H; by inversion H.
Qed.

Lemma Read_fills_in_order_witness :
  exists g' files',
    GitReader.Read joinPath statTree gitIndex reader None [None; None; None]
    = (g', files', 2, Some EOF)
    /\ files' = map Some (take 2 (GitReader.existing joinPath statTree reader
                                    (GitReader.listing joinPath gitIndex reader)))
                ++ drop 2 [None; None; None].
Proof.
  eexists _, _. split; [reflexivity|].
  edestruct (Read_fills_in_order joinPath statTree gitIndex reader
               [None; None; None]) as (_ & Hf & _).
  - intros text err _ Hs. apply statTree_errors in Hs. by rewrite Hs.
  - reflexivity.
  - exact Hf.
Defined.

Lemma Read_twice_witness :
  exists g1 g2 fs1' fs2',
    GitReader.Read joinPath statTree gitIndex reader None [None] = (g1, fs1', 1, None)
    /\ GitReader.Read joinPath statTree gitIndex g1 None [None; None]
       = (g2, fs2', 1, Some EOF)
    /\ GitReader.Read joinPath statTree gitIndex reader None ([None] ++ [None; None])
       = (g2, fs1' ++ fs2', 1 + 1, Some EOF).
Proof.
  eexists _, _, _, _. split; [reflexivity|]. split; [reflexivity|].
  eapply (Read_twice joinPath statTree gitIndex reader [None] [None; None]);
    reflexivity.
Defined.

Lemma Read_cancelled_witness :
  GitReader.Read joinPath statTree gitIndex reader (Some 0) [None; None]
  = (GitReader.mkGitReader "/repo" "" 0 (Some (gitIndex "/repo")), [None; None], 0,
     Some Canceled).
Proof.
  apply (Read_cancelled joinPath statTree gitIndex reader [None; None]). simpl. lia.
Defined.

Lemma Read_stat_failure_witness :
  GitReader.Read joinPath statLocked gitIndex lockedReader None [None; None]
  = (GitReader.mkGitReader "/repo" "" 0 (Some ["treefmt.toml"]), [None; None], 0,
     Some (Wrapf ("failed to stat " +:+ "/repo/secret.key") ErrPermission)).
Proof.
  apply (Read_stat_failure joinPath statLocked gitIndex lockedReader ["nixpkgs.toml"]
           "secret.key" ["treefmt.toml"] [None; None] ErrPermission).
  - reflexivity.
  - simpl. lia.
  - constructor; [reflexivity|constructor].
  - reflexivity.
  - reflexivity.
Defined.
